(** * useClientDataState: the polling data provider of the lightning-hpo UI

    A shallow embedding of [src/lightning_hpo/app/ui/src/hooks/useClientDataState.tsx]:
    the endpoint registry ([clientEndpoints], [clientDataContexts]), the
    [ClientDataProvider] component (reducer, polling effect, cleanup) and the
    [useClientDataState] reader, run on a small single-threaded event loop
    (interval timers on a millisecond clock, promises settled by the network,
    React's update queue). *)

From Stdlib Require Import Ascii.
From stdpp Require Import base list strings.

(** ** The endpoint registry *)

(** [keyof typeof clientEndpoints]. *)
Inductive Endpoint := sweeps | notebooks | tensorboards.

#[global] Instance Endpoint_eq_dec : EqDecision Endpoint.
Proof. solve_decision. Defined.

(** The two services of the generated [AppClient] and a call of one of their
    operations. *)
Inductive Service := appClientCommand | appCommand.

Record Command := { service : Service; operation : string }.

(** A React context object: its identity (allocation order of
    [React.createContext]) and its default value. *)
Record Context (Item : Type) := { ctx_id : nat; ctx_default : list Item }.
Arguments ctx_id {Item} _.
Arguments ctx_default {Item} _.
Arguments Build_Context {Item} _ _.

(** [React.createContext<any[]>(defaultValue)]. *)
Definition createContext {Item} (id : nat) (defaultValue : list Item) : Context Item :=
  {| ctx_id := id; ctx_default := defaultValue |}.

(** A JS object literal with endpoint keys: its properties in source order. *)
Definition Table (V : Type) := list (Endpoint * V).

(** Property access [obj[key]]; [None] is JS [undefined]. *)
Fixpoint get {V} (key : Endpoint) (obj : Table V) : option V :=
  match obj with
  | [] => None
  | (k, v) :: rest => if decide (k = key) then Some v else get key rest
  end.

Definition keys {V} (obj : Table V) : list Endpoint := obj.*1.

(** The two module-level tables. *)
Record Registry (Item : Type) := {
  clientEndpoints : Table Command;
  clientDataContexts : Table (Context Item);
}.
Arguments clientEndpoints {Item} _.
Arguments clientDataContexts {Item} _.
Arguments Build_Registry {Item} _ _.

(** The tables as the module builds them when it is loaded. *)
Definition module_registry {Item} : Registry Item := {|
  clientEndpoints :=
    [ (sweeps, {| service := appClientCommand; operation := "showSweepsCommandShowSweepsPost" |});
      (notebooks, {| service := appClientCommand; operation := "showNotebooksCommandShowNotebooksPost" |});
      (tensorboards, {| service := appCommand; operation := "showTensorboardsCommandShowTensorboardsPost" |}) ];
  clientDataContexts :=
    [ (sweeps, createContext 0 []);
      (notebooks, createContext 1 []);
      (tensorboards, createContext 2 []) ];
|}.

(** ** The state of the page *)

(** The argument of [enqueueSnackbar]. *)
Record Snack := { title : string; children : string; severity : string }.

(** What can escape to the event loop uncaught. *)
Inductive Exn := TypeError | UnhandledRejection.

(** One mounted (or formerly mounted) [ClientDataProvider]. [state] is the
    value [useReducer] returned at the last render, [pending] the updates
    queued by [dispatch] since; [interval] is the [const interval] of the
    effect, present once [setInterval] has returned. *)
Record Session (Item : Type) := {
  props_endpoint : Endpoint;
  state : list Item;
  pending : list (list Item);
  mounted : bool;
  interval : option nat;
}.
Arguments props_endpoint {Item} _.
Arguments state {Item} _.
Arguments pending {Item} _.
Arguments mounted {Item} _.
Arguments interval {Item} _.
Arguments Build_Session {Item} _ _ _ _ _.

(** An interval timer. Its callback is [() => { post(); }], a closure over
    the [props] of the render whose effect created it ([t_endpoint]) and over
    that component's [dispatch] ([t_owner]). *)
Record Timer := {
  tid : nat;
  t_owner : nat;
  t_endpoint : Endpoint;
  period : nat;
  due : nat;
}.

(** One call of the remote data source, with the promise it returned.
    The handlers attached by [post] belong to the component [r_owner]. *)
Record Request := {
  pid : nat;
  r_time : nat;
  r_owner : nat;
  r_endpoint : Endpoint;
  r_command : Command;
}.

Record World (Item : Type) := {
  registry : Registry Item;
  clock : nat;                      (* milliseconds *)
  sessions : list (Session Item);   (* a component's id is its index *)
  timers : list Timer;              (* live intervals, in registration order *)
  next_timer : nat;
  inflight : list Request;          (* promises not settled yet *)
  next_promise : nat;
  fetch_log : list Request;         (* every call of the data source so far *)
  notifications : list Snack;
  uncaught : list Exn;
}.
Arguments registry {Item} _.
Arguments clock {Item} _.
Arguments sessions {Item} _.
Arguments timers {Item} _.
Arguments next_timer {Item} _.
Arguments inflight {Item} _.
Arguments next_promise {Item} _.
Arguments fetch_log {Item} _.
Arguments notifications {Item} _.
Arguments uncaught {Item} _.
Arguments Build_World {Item} _ _ _ _ _ _ _ _ _ _.

(** The outcome of a settled promise. *)
Inductive Settled (Err A : Type) :=
  | Fulfilled (a : A)
  | Rejected (e : Err).
Arguments Fulfilled {Err A} _.
Arguments Rejected {Err A} _.

Section Provider.
Context {Item Err : Type}.

#[local] Abbreviation World := (World Item).
#[local] Abbreviation Session := (Session Item).

(** The page right after the module is loaded: nothing mounted yet. *)
Definition init : World := {|
  registry := module_registry;
  clock := 0;
  sessions := [];
  timers := [];
  next_timer := 0;
  inflight := [];
  next_promise := 0;
  fetch_log := [];
  notifications := [];
  uncaught := [];
|}.

(** *** Field updates *)

Definition set_clock (t : nat) (w : World) : World :=
  Build_World (registry w) t (sessions w) (timers w) (next_timer w)
    (inflight w) (next_promise w) (fetch_log w) (notifications w) (uncaught w).

Definition set_sessions (ss : list Session) (w : World) : World :=
  Build_World (registry w) (clock w) ss (timers w) (next_timer w)
    (inflight w) (next_promise w) (fetch_log w) (notifications w) (uncaught w).

Definition set_timers (ts : list Timer) (w : World) : World :=
  Build_World (registry w) (clock w) (sessions w) ts (next_timer w)
    (inflight w) (next_promise w) (fetch_log w) (notifications w) (uncaught w).

Definition set_inflight (rs : list Request) (w : World) : World :=
  Build_World (registry w) (clock w) (sessions w) (timers w) (next_timer w)
    rs (next_promise w) (fetch_log w) (notifications w) (uncaught w).

Definition set_pending (q : list (list Item)) (s : Session) : Session :=
  Build_Session (props_endpoint s) (state s) q (mounted s) (interval s).

Definition set_props (K : Endpoint) (s : Session) : Session :=
  Build_Session K (state s) (pending s) (mounted s) (interval s).

Definition set_mounted (b : bool) (s : Session) : Session :=
  Build_Session (props_endpoint s) (state s) (pending s) b (interval s).

Definition set_interval (i : nat) (s : Session) : Session :=
  Build_Session (props_endpoint s) (state s) (pending s) (mounted s) (Some i).

(** *** Collaborators: notification sink, exceptions, timers *)

Definition enqueueSnackbar (snack : Snack) (w : World) : World :=
  Build_World (registry w) (clock w) (sessions w) (timers w) (next_timer w)
    (inflight w) (next_promise w) (fetch_log w) (notifications w ++ [snack]) (uncaught w).

Definition throw (e : Exn) (w : World) : World :=
  Build_World (registry w) (clock w) (sessions w) (timers w) (next_timer w)
    (inflight w) (next_promise w) (fetch_log w) (notifications w) (uncaught w ++ [e]).

(** [setInterval(callback, ms)]: the new timer first fires [ms] from now;
    returns its id. *)
Definition setInterval (owner : nat) (props : Endpoint) (ms : nat) (w : World)
  : nat * World :=
  let t := {| tid := next_timer w; t_owner := owner; t_endpoint := props;
              period := ms; due := clock w + ms |} in
  (next_timer w,
   Build_World (registry w) (clock w) (sessions w) (timers w ++ [t]) (S (next_timer w))
     (inflight w) (next_promise w) (fetch_log w) (notifications w) (uncaught w)).

Definition clearInterval (id : nat) (w : World) : World :=
  set_timers (filter (λ t, tid t ≠ id) (timers w)) w.

(** *** The component *)

(** [(state, newValue) => newValue]. *)
Definition reducer (state newValue : list Item) : list Item := newValue.

(** [dispatch(data)] of component [sid]: React appends the update to the
    component's queue; it is applied at the component's next render. *)
Definition dispatch (sid : nat) (data : list Item) (w : World) : World :=
  set_sessions (alter (λ s, set_pending (pending s ++ [data]) s) sid (sessions w)) w.

(** The snackbar of the [catch] handler. *)
Definition fetch_error_snack : Snack :=
  {| title := "Error Fetching Data";
     children := "Try reloading the page";
     severity := "error" |}.

(** Calling the endpoint's function [f(appClient)] issues the request and
    returns its promise, which joins the promises in flight. *)
Definition call_endpoint (sid : nat) (props : Endpoint) (cmd : Command) (w : World) : World :=
  let r := {| pid := next_promise w; r_time := clock w; r_owner := sid;
              r_endpoint := props; r_command := cmd |} in
  Build_World (registry w) (clock w) (sessions w) (timers w) (next_timer w)
    (inflight w ++ [r]) (S (next_promise w)) (fetch_log w ++ [r])
    (notifications w) (uncaught w).

(** [post()], up to the point where the promise chain is built: looks the
    endpoint's function up and calls it. [None]: the lookup gave
    [undefined], whose call throws. *)
Definition post (sid : nat) (props : Endpoint) (w : World) : option World :=
  match get props (clientEndpoints (registry w)) with
  | Some cmd => Some (call_endpoint sid props cmd w)
  | None => None
  end.

(** [p.then(onFulfilled)]. *)
Definition then_ {A} (p : Settled Err A) (onFulfilled : A → World → World) (w : World)
  : Settled Err unit * World :=
  match p with
  | Fulfilled a => (Fulfilled tt, onFulfilled a w)
  | Rejected e => (Rejected e, w)
  end.

(** [p.catch(onRejected)]. *)
Definition catch_ (p : Settled Err unit) (onRejected : Err → World → World) (w : World)
  : Settled Err unit * World :=
  match p with
  | Fulfilled a => (Fulfilled a, w)
  | Rejected e => (Fulfilled tt, onRejected e w)
  end.

(** The rest of [post()], run when the promise of request [r] settles:
    [.then(data => dispatch(data)).catch(error => enqueueSnackbar({...}))].
    A chain that ends rejected is an unhandled rejection. *)
Definition settle (r : Request) (p : Settled Err (list Item)) (w : World) : World :=
  let '(p1, w1) := then_ p (λ data, dispatch (r_owner r) data) w in
  let '(p2, w2) := catch_ p1 (λ error, enqueueSnackbar fetch_error_snack) w1 in
  match p2 with
  | Fulfilled _ => w2
  | Rejected _ => throw UnhandledRejection w2
  end.

(** First render and the effect of [ClientDataProvider] (dependencies [[]]:
    it runs once, after the first render). *)
Definition mount (K : Endpoint) (w : World) : World :=
  let sid := length (sessions w) in
  let w1 := set_sessions (sessions w ++ [Build_Session K [] [] true None]) w in
  match post sid K w1 with
  | None => throw TypeError w1
  | Some w2 =>
      let '(id, w3) := setInterval sid K 1000 w2 in
      set_sessions (alter (set_interval id) sid (sessions w3)) w3
  end.

(** A render of a mounted component: React applies the queued updates with
    the reducer, in order. An unmounted component is never rendered. *)
Definition render (sid : nat) (w : World) : World :=
  set_sessions
    (alter (λ s, if mounted s
                 then Build_Session (props_endpoint s) (foldl reducer (state s) (pending s))
                        [] true (interval s)
                 else s) sid (sessions w)) w.

(** The parent renders the provider again with another [endpoint] prop. The
    effect does not run again. *)
Definition rerender (sid : nat) (K : Endpoint) (w : World) : World :=
  render sid
    (set_sessions (alter (λ s, if mounted s then set_props K s else s) sid (sessions w)) w).

(** Unmount: React runs the effect's cleanup, [() => clearInterval(interval)]. *)
Definition unmount (sid : nat) (w : World) : World :=
  match sessions w !! sid with
  | Some s =>
      if mounted s then
        let w1 := set_sessions (alter (set_mounted false) sid (sessions w)) w in
        match interval s with
        | Some id => clearInterval id w1
        | None => w1
        end
      else w
  | None => w
  end.

(** *** The event loop *)

(** A timer fires: its callback runs [post()]. *)
Definition fire (w : World) (t : Timer) : World :=
  match post (t_owner t) (t_endpoint t) w with
  | Some w' => w'
  | None => throw TypeError w
  end.

Definition is_due (now : nat) (t : Timer) : bool := Nat.eqb (due t) now.

Definition reschedule (now : nat) (t : Timer) : Timer :=
  if is_due now t
  then {| tid := tid t; t_owner := t_owner t; t_endpoint := t_endpoint t;
          period := period t; due := due t + period t |}
  else t.

(** The clock advances by one millisecond; the intervals due then fire in
    registration order and are scheduled again one period later. *)
Definition tick (w : World) : World :=
  let now := S (clock w) in
  let w1 := foldl fire (set_clock now w) (filter (λ t, is_due now t = true) (timers w)) in
  set_timers (reschedule now <$> timers w1) w1.

Definition advance (ms : nat) (w : World) : World := Nat.iter ms tick w.

Fixpoint find_request (p : nat) (rs : list Request) : option Request :=
  match rs with
  | [] => None
  | r :: rest => if decide (pid r = p) then Some r else find_request p rest
  end.

(** The promise [p] settles: it leaves the in-flight set and its handlers
    run. Settling a promise that is not in flight is not an event. *)
Definition settle_promise (p : nat) (o : Settled Err (list Item)) (w : World) : World :=
  match find_request p (inflight w) with
  | Some r => settle r o (set_inflight (filter (λ r', pid r' ≠ p) (inflight w)) w)
  | None => w
  end.

Inductive Event :=
  | Mount (K : Endpoint)
  | Rerender (sid : nat) (K : Endpoint)
  | Unmount (sid : nat)
  | Advance (ms : nat)
  | Resolve (p : nat) (data : list Item)
  | Reject (p : nat) (error : Err)
  | Flush (sid : nat).

Definition step (w : World) (ev : Event) : World :=
  match ev with
  | Mount K => mount K w
  | Rerender sid K => rerender sid K w
  | Unmount sid => unmount sid w
  | Advance ms => advance ms w
  | Resolve p data => settle_promise p (Fulfilled data) w
  | Reject p error => settle_promise p (Rejected error) w
  | Flush sid => render sid w
  end.

Definition run (w : World) (evs : list Event) : World := foldl step w evs.

(** *** The reader *)

(** [React.useContext(ctx)] for a reader below the providers [ancestors]
    (nearest first): the value of the nearest mounted provider of [ctx],
    else the context's default. *)
Fixpoint useContext (ctx : Context Item) (ancestors : list nat) (w : World) : list Item :=
  match ancestors with
  | [] => ctx_default ctx
  | sid :: outer =>
      match sessions w !! sid with
      | Some s =>
          match get (props_endpoint s) (clientDataContexts (registry w)) with
          | Some c =>
              if mounted s && bool_decide (ctx_id c = ctx_id ctx)
              then state s
              else useContext ctx outer w
          | None => useContext ctx outer w
          end
      | None => useContext ctx outer w
      end
  end.

(** [useClientDataState(endpoint)]; [None]: [useContext(undefined)] throws. *)
Definition useClientDataState (endpoint : Endpoint) (ancestors : list nat) (w : World)
  : option (list Item) :=
  match get endpoint (clientDataContexts (registry w)) with
  | Some ctx => Some (useContext ctx ancestors w)
  | None => None
  end.

(** *** Observations *)

Definition fetches_of (sid : nat) (w : World) : list Request :=
  filter (λ r, r_owner r = sid) (fetch_log w).

Definition fetches_for (K : Endpoint) (w : World) : list Request :=
  filter (λ r, r_endpoint r = K) (fetch_log w).

Definition timers_of (sid : nat) (w : World) : list Timer :=
  filter (λ t, t_owner t = sid) (timers w).

(** The value component [sid] rendered last, which its provider hands down. *)
Definition snapshot (sid : nat) (w : World) : option (list Item) :=
  state <$> sessions w !! sid.

Definition is_resolve (ev : Event) : bool :=
  match ev with Resolve _ _ => true | _ => false end.

Fixpoint elapsed (evs : list Event) : nat :=
  match evs with
  | [] => 0
  | Advance ms :: rest => ms + elapsed rest
  | _ :: rest => elapsed rest
  end.

(** *** Invariants of the page *)

Implicit Types (w : World) (sid : nat) (K : Endpoint) (t : Timer) (r : Request).

(** [fired now t r]: [r] is the request the callback of [t] issued at [now]. *)
Definition fired (now : nat) t r : Prop :=
  r_owner r = t_owner t ∧ r_endpoint r = t_endpoint t ∧ r_time r = now.

(** The fields no callback writes. *)
Definition same_page w w' : Prop :=
  registry w' = registry w ∧ clock w' = clock w ∧ sessions w' = sessions w
  ∧ timers w' = timers w ∧ next_timer w' = next_timer w
  ∧ notifications w' = notifications w ∧ uncaught w' = uncaught w.

(** What every page reached from [init] satisfies: the tables are those of
    the module; a live timer is the interval of its owner, which is mounted;
    interval ids and owners of requests have been allocated. *)
Record wf w : Prop := {
  wf_registry : registry w = module_registry;
  wf_timer_owner : ∀ t, t ∈ timers w →
    ∃ s, sessions w !! t_owner t = Some s
         ∧ interval s = Some (tid t) ∧ mounted s = true;
  wf_interval_lt : ∀ i s k,
    sessions w !! i = Some s → interval s = Some k → k < next_timer w;
  wf_fetch_owner : ∀ r, r ∈ fetch_log w → r_owner r < length (sessions w);
}.

(** The operations that start or stop no timer and issue no request. *)
Definition same_polling w w' : Prop :=
  registry w' = registry w ∧ clock w' = clock w ∧ timers w' = timers w
  ∧ next_timer w' = next_timer w ∧ fetch_log w' = fetch_log w
  ∧ length (sessions w') = length (sessions w)
  ∧ ∀ i, interval <$> sessions w' !! i = interval <$> sessions w !! i.

(** A component that exists and owns no live timer. *)
Definition stopped sid w : Prop :=
  registry w = module_registry ∧ sid < length (sessions w) ∧ timers_of sid w = [].

(** Component [sid] has issued [c] requests and owns exactly one live
    timer, of period 1000, next due [d] milliseconds from now; no other
    component holds that timer's id. *)
Definition polling sid (c d : nat) w : Prop :=
  registry w = module_registry
  ∧ sid < length (sessions w)
  ∧ 1 ≤ d ≤ 1000
  ∧ length (fetches_of sid w) = c
  ∧ ∃ t, timers_of sid w = [t] ∧ period t = 1000 ∧ due t = clock w + d
         ∧ tid t < next_timer w
         ∧ ∀ j, j ≠ sid → interval <$> sessions w !! j ≠ Some (Some (tid t)).

(** A timer for endpoint [K] of period 1000 that fires at the times
    [start + 1000 * k] only, and a request for [K] issued at such a time. *)
Definition timer_for K (start : nat) t : Prop :=
  t_endpoint t = K ∧ period t = 1000 ∧ ∃ k, due t = start + 1000 * k.

Definition request_for K (start : nat) r : Prop :=
  r_endpoint r = K ∧ ∃ k, r_time r = start + 1000 * k.

(** Every timer and every request of component [sid] is for endpoint [K],
    on the 1000 ms grid that starts at [start]. *)
Definition bound sid K (start : nat) w : Prop :=
  registry w = module_registry
  ∧ sid < length (sessions w)
  ∧ (∀ t, t ∈ timers_of sid w → timer_for K start t)
  ∧ (∀ r, r ∈ fetches_of sid w → request_for K start r).

(** No component has rendered or queued a result. *)
Definition blank (ss : list Session) : Prop :=
  Forall (λ s, state s = [] ∧ pending s = []) ss.

(** Component [sid] is unmounted and its rendered state is [st]. *)
Definition frozen sid (st : list Item) w : Prop :=
  ∃ s, sessions w !! sid = Some s ∧ mounted s = false ∧ state s = st.

End Provider.

Arguments init {Item}.
Arguments Event : clear implicits.


(** ** Some concrete pages *)

(** The page with one provider for sweeps, at mount time. *)
Definition one_mounted : World nat :=
  run (Err := unit) init [Mount sweeps].

(** One provider for sweeps, one second after the mount: its first two
    requests (promises 0 and 1) are both in flight. *)
Definition two_in_flight : World nat :=
  run (Err := unit) init [Mount sweeps; Advance 1000].

(** One provider for sweeps, unmounted while its first request (promise 0)
    is in flight. *)
Definition stopped_in_flight : World nat :=
  run (Err := unit) init [Mount sweeps; Unmount 0].

(** The request with promise [p] that component 0 issued for sweeps at [t]. *)
Definition sweeps_request (p t : nat) : Request :=
  {| pid := p; r_time := t; r_owner := 0; r_endpoint := sweeps;
     r_command := {| service := appClientCommand;
                     operation := "showSweepsCommandShowSweepsPost" |} |}.

(** Component 0 on these pages. *)
Definition sweeps_session (live : bool) : Session nat :=
  {| props_endpoint := sweeps; state := []; pending := []; mounted := live;
     interval := Some 0 |}.

(** ** Further invariants of the page *)

Section MoreInvariants.
Context {Item Err : Type}.

Implicit Types (w : World Item) (evs : list (Event Item Err)) (sid : nat).

Definition is_reject (ev : Event Item Err) : bool :=
  match ev with Reject _ _ => true | _ => false end.

(** Every logged request called the function its endpoint has in the table. *)
Definition log_matches w : Prop :=
  ∀ r, r ∈ fetch_log w →
       get (r_endpoint r) (clientEndpoints (registry w)) = Some (r_command r).

(** A well-formed page on which timer ids are not shared, every mounted
    component owns a live timer, and every timer has the period 1000. *)
Record tidy w : Prop := {
  tidy_wf : wf w;
  tidy_ids : NoDup (tid <$> timers w);
  tidy_live : ∀ sid s, sessions w !! sid = Some s → mounted s = true →
                       ∃ t, t ∈ timers w ∧ t_owner t = sid;
  tidy_period : ∀ t, t ∈ timers w → period t = 1000;
}.

(** Promise ids are not shared and below the next one to allocate. *)
Definition pids_fresh w : Prop :=
  NoDup (pid <$> fetch_log w) ∧ ∀ r, r ∈ fetch_log w → pid r < next_promise w.

(** [data] is what a request of component [sid] resolved with in [evs]. *)
Definition returned_to evs w sid (data : list Item) : Prop :=
  ∃ p r, Resolve p data ∈ evs ∧ r ∈ fetch_log w ∧ pid r = p ∧ r_owner r = sid.

(** A component that has rendered and queued nothing but data that
    satisfies [R] (or, for the rendered state, the initial []). *)
Definition shows_only (R : list Item → Prop) (s : Session Item) : Prop :=
  (state s = [] ∨ R (state s)) ∧ ∀ d, d ∈ pending s → R d.

(** In-flight requests are logged, and what a component has rendered or
    queued is the result of requests of its own. *)
Definition own_data evs w : Prop :=
  (∀ r, r ∈ inflight w → r ∈ fetch_log w)
  ∧ ∀ sid s, sessions w !! sid = Some s → shows_only (returned_to evs w sid) s.

End MoreInvariants.

(** ** The base URL of the client *)

(** A JS string, by its characters. *)
Definition JSString := list ascii.

Definition str (s : string) : JSString := String.list_ascii_of_string s.

(** [s.replace(/\/$/, '')]: without the [m] flag [$] matches at the end of
    the input only, so the expression matches the last character when it is
    a slash, and nothing else. *)
Definition strip_trailing_slash (s : JSString) : JSString :=
  if decide (last s = Some "/"%char) then take (length s - 1) s else s.

(** [s.indexOf(pattern)]; [None] is [-1]. *)
Fixpoint indexOf (pattern s : JSString) : option nat :=
  if decide (pattern `prefix_of` s) then Some 0
  else match s with
       | [] => None
       | _ :: s' => S <$> indexOf pattern s'
       end.

(** [s.replace(pattern, replacement)] for a string [pattern] (and a
    [replacement] without [$]): the first occurrence only. *)
Definition replace (pattern replacement s : JSString) : JSString :=
  match indexOf pattern s with
  | Some i => take i s ++ replacement ++ drop (i + length pattern) s
  | None => s
  end.

(** The path the hosting page appends to the URL of the app. *)
Definition view_undefined : JSString := str "/view/undefined".

(** The [BASE] option of [appClient]. [framed] is
    [window.location != window.parent.location]; [referrer] is
    [document.referrer] and [href] is [document.location.href]. *)
Definition BASE (framed : bool) (referrer href : JSString) : JSString :=
  if framed
  then replace view_undefined [] (strip_trailing_slash referrer)
  else replace view_undefined [] (strip_trailing_slash href).

(** A string no proper suffix of which starts it again. *)
Definition unbordered (pattern : JSString) : Prop :=
  ∀ k, 0 < k < length pattern → ¬ drop k pattern `prefix_of` pattern.

(** * Properties *)

Section Properties.
Context {Item Err : Type}.

#[local] Abbreviation World := (World Item).
#[local] Abbreviation Event := (Event Item Err).
#[local] Abbreviation step := (@step Item Err).
#[local] Abbreviation run := (@run Item Err).
#[local] Abbreviation init := (@init Item).

Implicit Types (w : World) (ev : Event) (evs : list Event)
  (sid : nat) (K : Endpoint) (t : Timer) (r : Request) (s : Session Item).

(** ** The registry is total on the endpoint keys *)

Lemma endpoint_function_defined K :
  is_Some (get K (clientEndpoints (@module_registry Item))).
Proof. destruct K; cbn; eauto. Qed.

Lemma endpoint_context_defined K :
  ∃ ctx, get K (clientDataContexts (@module_registry Item)) = Some ctx
         ∧ ctx_default ctx = [].
Proof. destruct K; cbn; eauto. Qed.

Lemma post_defined sid K w :
  registry w = module_registry →
  ∃ cmd, post sid K w = Some (call_endpoint sid K cmd w).
Proof.
  intros Hreg. unfold post. rewrite Hreg.
  destruct (endpoint_function_defined K) as [cmd ->]. eauto.
Qed.

(** ** What a timer callback touches *)


Lemma fire_spec w t :
  registry w = module_registry →
  ∃ r, fired (clock w) t r ∧ pid r = next_promise w
       ∧ fetch_log (fire w t) = fetch_log w ++ [r]
       ∧ inflight (fire w t) = inflight w ++ [r]
       ∧ same_page w (fire w t).
Proof.
  intros Hreg. unfold fire.
  destruct (post_defined (t_owner t) (t_endpoint t) w Hreg) as [cmd ->].
  eexists. repeat split; reflexivity.
Qed.

Lemma fire_all_spec ts w :
  registry w = module_registry →
  ∃ new, Forall2 (fired (clock w)) ts new
         ∧ fetch_log (foldl fire w ts) = fetch_log w ++ new
         ∧ inflight (foldl fire w ts) = inflight w ++ new
         ∧ same_page w (foldl fire w ts).
Proof.
  revert w. induction ts as [|t ts IH]; intros w Hreg; cbn [foldl].
  - exists []. rewrite !app_nil_r. repeat split; constructor.
  - destruct (fire_spec w t Hreg) as (r & Hr & _ & Hlog & Hfl & Hsame).
    destruct Hsame as (Hrg & Hck & Hss & Hts & Hnt & Hno & Hun).
    destruct (IH (fire w t)) as (new & Hnew & Hlog' & Hfl' & Hsame');
      [congruence|].
    exists (r :: new). rewrite Hlog', Hfl', Hlog, Hfl, <- !app_assoc.
    split; [|split; [reflexivity|split; [reflexivity|]]].
    + constructor; [exact Hr|]. rewrite <- Hck. exact Hnew.
    + destruct Hsame' as (? & ? & ? & ? & ? & ? & ?).
      repeat split; congruence.
Qed.

Lemma tick_spec w :
  registry w = module_registry →
  ∃ new, Forall2 (fired (S (clock w)))
           (filter (λ t, is_due (S (clock w)) t = true) (timers w)) new
         ∧ fetch_log (tick w) = fetch_log w ++ new
         ∧ inflight (tick w) = inflight w ++ new
         ∧ timers (tick w) = reschedule (S (clock w)) <$> timers w
         ∧ clock (tick w) = S (clock w)
         ∧ registry (tick w) = registry w
         ∧ sessions (tick w) = sessions w
         ∧ next_timer (tick w) = next_timer w
         ∧ notifications (tick w) = notifications w
         ∧ uncaught (tick w) = uncaught w.
Proof.
  intros Hreg. unfold tick.
  destruct (fire_all_spec
              (filter (λ t, is_due (S (clock w)) t = true) (timers w))
              (set_clock (S (clock w)) w) Hreg)
    as (new & Hnew & Hlog & Hfl & Hrg & Hck & Hss & Hts & Hnt & Hno & Hun).
  exists new. cbn in *. rewrite Hts. repeat split; assumption.
Qed.

(** ** What mounting does *)

Lemma mount_spec K w :
  registry w = module_registry →
  ∃ cmd,
    mount K w =
    Build_World (registry w) (clock w)
      (sessions w ++ [Build_Session K [] [] true (Some (next_timer w))])
      (timers w ++ [{| tid := next_timer w; t_owner := length (sessions w);
                       t_endpoint := K; period := 1000; due := clock w + 1000 |}])
      (S (next_timer w))
      (inflight w ++ [{| pid := next_promise w; r_time := clock w;
                         r_owner := length (sessions w); r_endpoint := K;
                         r_command := cmd |}])
      (S (next_promise w))
      (fetch_log w ++ [{| pid := next_promise w; r_time := clock w;
                          r_owner := length (sessions w); r_endpoint := K;
                          r_command := cmd |}])
      (notifications w) (uncaught w).
Proof.
  intros Hreg. unfold mount.
  destruct (post_defined (length (sessions w)) K
              (set_sessions (sessions w ++ [Build_Session K [] [] true None]) w) Hreg)
    as [cmd ->].
  exists cmd. cbn. unfold set_sessions; cbn. f_equal.
  rewrite alter_app_r_alt by lia. rewrite Nat.sub_diag. reflexivity.
Qed.

(** ** Well-formed pages *)


Lemma wf_init : wf init.
Proof.
  split; cbn; try reflexivity.
  - intros t Ht. by apply not_elem_of_nil in Ht.
  - intros i s k Hs. by rewrite lookup_nil in Hs.
  - intros r Hr. by apply not_elem_of_nil in Hr.
Qed.

Lemma wf_mount K w : wf w → wf (mount K w).
Proof.
  intros [Hreg Hto Hil Hfo].
  destruct (mount_spec K w Hreg) as [cmd ->].
  split; cbn.
  - exact Hreg.
  - intros t [Ht| ->%list_elem_of_singleton]%elem_of_app.
    + destruct (Hto t Ht) as (s & Hs & Hi & Hm).
      exists s. rewrite lookup_app_l by (by eapply lookup_lt_Some). auto.
    + cbn. eexists. rewrite list_lookup_middle by reflexivity. auto.
  - intros i s k Hs Hk.
    apply lookup_snoc_Some in Hs as [[_ Hs] | [_ <-]].
    + specialize (Hil i s k Hs Hk). lia.
    + cbn in Hk. injection Hk as <-. lia.
  - intros r [Hr| ->%list_elem_of_singleton]%elem_of_app; rewrite length_app; cbn.
    + specialize (Hfo r Hr). lia.
    + lia.
Qed.

Lemma lookup_alter_inv (f : Session Item → Session Item) sid (l : list (Session Item)) i s :
  alter f sid l !! i = Some s →
  ∃ s0, l !! i = Some s0 ∧ (s = s0 ∨ (i = sid ∧ s = f s0)).
Proof.
  rewrite list_lookup_alter. case_decide as Hd.
  - subst i. destruct (l !! sid) as [s0|]; cbn; [|done].
    intros [= <-]. eauto.
  - eauto.
Qed.

Lemma wf_alter (f : Session Item → Session Item) sid w :
  (∀ s, interval (f s) = interval s ∧ mounted (f s) = mounted s) →
  wf w → wf (set_sessions (alter f sid (sessions w)) w).
Proof.
  intros Hf [Hreg Hto Hil Hfo]. split; cbn.
  - exact Hreg.
  - intros t Ht. destruct (Hto t Ht) as (s & Hs & Hi & Hm).
    rewrite list_lookup_alter. case_decide.
    + subst sid. rewrite Hs. cbn. exists (f s).
      destruct (Hf s) as [-> ->]. auto.
    + eauto.
  - intros i s k Hs Hk.
    apply lookup_alter_inv in Hs as (s0 & Hs0 & [->|[_ ->]]).
    + eauto.
    + destruct (Hf s0) as [Hi _]. rewrite Hi in Hk. eauto.
  - intros r Hr. rewrite length_alter. auto.
Qed.

Lemma wf_dispatch sid data w : wf w → wf (dispatch sid data w).
Proof. apply wf_alter. intros s. split; reflexivity. Qed.

Lemma wf_render sid w : wf w → wf (render sid w).
Proof.
  apply wf_alter. intros s. destruct (mounted s) eqn:Hm; cbn; auto.
Qed.

Lemma wf_rerender sid K w : wf w → wf (rerender sid K w).
Proof.
  intros Hw. apply wf_render. revert Hw. apply wf_alter.
  intros s. destruct (mounted s) eqn:Hm; cbn; auto.
Qed.

Lemma wf_unmount sid w : wf w → wf (unmount sid w).
Proof.
  intros Hw. unfold unmount.
  destruct (sessions w !! sid) as [s|] eqn:Hs; [|exact Hw].
  destruct (mounted s) eqn:Hm; [|exact Hw].
  destruct Hw as [Hreg Hto Hil Hfo].
  assert (Hother : ∀ t, t ∈ timers w → tid t ≠ default (next_timer w) (interval s) →
            ∃ s', alter (set_mounted false) sid (sessions w) !! t_owner t = Some s'
                  ∧ interval s' = Some (tid t) ∧ mounted s' = true).
  { intros t Ht Hne. destruct (Hto t Ht) as (s' & Hs' & Hi & Hm').
    rewrite list_lookup_alter. case_decide as Hd; [|eauto].
    exfalso. rewrite Hd, Hs' in Hs. injection Hs as ->.
    rewrite Hi in Hne. cbn in Hne. congruence. }
  assert (Hlt : ∀ i s' k, alter (set_mounted false) sid (sessions w) !! i = Some s' →
            interval s' = Some k → k < next_timer w).
  { intros i s' k Hs' Hk.
    apply lookup_alter_inv in Hs' as (s0 & Hs0 & [->|[_ ->]]); eauto. }
  destruct (interval s) as [id|] eqn:Hi; split; cbn; auto.
  - intros t [Hne Ht]%list_elem_of_filter. apply Hother; auto.
  - intros r Hr. rewrite length_alter. auto.
  - intros t Ht. apply Hother; [exact Ht|]. cbn.
    destruct (Hto t Ht) as (s' & Hs' & Hi' & _).
    specialize (Hil _ _ _ Hs' Hi'). lia.
  - intros r Hr. rewrite length_alter. auto.
Qed.

Lemma reschedule_same now t :
  tid (reschedule now t) = tid t ∧ t_owner (reschedule now t) = t_owner t
  ∧ t_endpoint (reschedule now t) = t_endpoint t
  ∧ period (reschedule now t) = period t.
Proof. unfold reschedule. destruct (is_due now t); auto. Qed.

Lemma wf_tick w : wf w → wf (tick w).
Proof.
  intros [Hreg Hto Hil Hfo].
  destruct (tick_spec w Hreg)
    as (new & Hnew & Hlog & Hfl & Hts & Hck & Hrg & Hss & Hnt & Hno & Hun).
  split.
  - congruence.
  - rewrite Hts, Hss. intros t' (t & -> & Ht)%list_elem_of_fmap.
    destruct (reschedule_same (S (clock w)) t) as (-> & -> & _). auto.
  - rewrite Hss, Hnt. exact Hil.
  - rewrite Hlog, Hss. intros r [Hr|Hr]%elem_of_app; [auto|].
    apply list_elem_of_lookup in Hr as [i Hr].
    destruct (Forall2_lookup_r _ _ _ _ _ Hnew Hr) as (t & Ht & Hown & _).
    apply list_elem_of_lookup_2, list_elem_of_filter in Ht as [_ Ht].
    destruct (Hto t Ht) as (s & Hs & _). rewrite Hown.
    by eapply lookup_lt_Some.
Qed.

Lemma wf_advance ms w : wf w → wf (advance ms w).
Proof.
  intros Hw. unfold advance. induction ms as [|ms IH]; [exact Hw|].
  rewrite Nat.iter_succ. by apply wf_tick.
Qed.

Lemma wf_settle_promise p (o : Settled Err (list Item)) w :
  wf w → wf (settle_promise p o w).
Proof.
  intros Hw. unfold settle_promise.
  destruct (find_request p (inflight w)) as [r|]; [|exact Hw].
  assert (Hw' : wf (set_inflight (filter (λ r', pid r' ≠ p) (inflight w)) w)).
  { destruct Hw. by split. }
  destruct o as [data|e]; cbn.
  - by apply wf_dispatch.
  - destruct Hw'. by split.
Qed.

Lemma wf_step w ev : wf w → wf (step w ev).
Proof.
  destruct ev; cbn;
    auto using wf_mount, wf_rerender, wf_unmount, wf_advance,
      wf_settle_promise, wf_render.
Qed.

Lemma run_cons w ev evs : run w (ev :: evs) = run (step w ev) evs.
Proof. reflexivity. Qed.

Lemma wf_run evs w : wf w → wf (run w evs).
Proof.
  revert w. induction evs as [|ev evs IH]; intros w Hw; [exact Hw|].
  rewrite run_cons. apply IH, wf_step, Hw.
Qed.

(** ** One component's timers and requests across the operations *)

Lemma filter_none {A} (P : A → Prop) `{!∀ x, Decision (P x)} (l : list A) :
  (∀ x, x ∈ l → ¬ P x) → filter P l = [].
Proof.
  induction l as [|x l IH]; intros Hl; [reflexivity|].
  rewrite filter_cons_False by (apply Hl; left).
  apply IH. intros y Hy. apply Hl. by right.
Qed.

Lemma filter_fmap_same {A} (P : A → Prop) `{!∀ x, Decision (P x)}
    (f : A → A) (l : list A) :
  (∀ x, P (f x) ↔ P x) → filter P (f <$> l) = f <$> filter P l.
Proof.
  intros Hf. induction l as [|x l IH]; [reflexivity|]. rewrite fmap_cons.
  destruct (decide (P x)) as [Hx|Hx].
  - rewrite (filter_cons_True P (f x)) by (by apply Hf).
    rewrite (filter_cons_True P x) by done. by rewrite fmap_cons, IH.
  - rewrite (filter_cons_False P (f x)) by (by rewrite Hf).
    rewrite (filter_cons_False P x) by done. exact IH.
Qed.

Lemma filter_swap {A} (P Q : A → Prop)
    `{!∀ x, Decision (P x), !∀ x, Decision (Q x)} (l : list A) :
  filter P (filter Q l) = filter Q (filter P l).
Proof. rewrite !list_filter_filter. apply list_filter_iff. tauto. Qed.

Lemma Forall2_filter {A B} (R : A → B → Prop) (P : A → Prop) (Q : B → Prop)
    `{!∀ x, Decision (P x), !∀ y, Decision (Q y)} (l : list A) (k : list B) :
  (∀ x y, R x y → (P x ↔ Q y)) →
  Forall2 R l k → Forall2 R (filter P l) (filter Q k).
Proof.
  intros HPQ. induction 1 as [|x y l k Hxy _ IH]; [constructor|].
  destruct (decide (P x)) as [Hx|Hx].
  - rewrite (filter_cons_True P x) by done.
    rewrite (filter_cons_True Q y) by (by apply (HPQ x y)). by constructor.
  - rewrite (filter_cons_False P x) by done.
    rewrite (filter_cons_False Q y) by (by rewrite <- (HPQ x y)). exact IH.
Qed.

Lemma tick_timers_of sid w :
  registry w = module_registry →
  timers_of sid (tick w) = reschedule (S (clock w)) <$> timers_of sid w.
Proof.
  intros Hreg. destruct (tick_spec w Hreg) as (new & _ & _ & _ & Hts & _).
  unfold timers_of. rewrite Hts. apply filter_fmap_same.
  intros t. by destruct (reschedule_same (S (clock w)) t) as (_ & -> & _).
Qed.

Lemma tick_fetches_of sid w :
  registry w = module_registry →
  ∃ new, Forall2 (fired (S (clock w)))
           (filter (λ t, is_due (S (clock w)) t = true) (timers_of sid w)) new
         ∧ fetches_of sid (tick w) = fetches_of sid w ++ new.
Proof.
  intros Hreg. destruct (tick_spec w Hreg) as (new & Hnew & Hlog & _).
  exists (filter (λ r, r_owner r = sid) new). split.
  - unfold timers_of. rewrite filter_swap.
    revert Hnew. apply Forall2_filter.
    intros t r (Hown & _). by rewrite Hown.
  - unfold fetches_of. by rewrite Hlog, filter_app.
Qed.


Lemma same_polling_alter (f : Session Item → Session Item) sid w :
  (∀ s, interval (f s) = interval s) →
  same_polling w (set_sessions (alter f sid (sessions w)) w).
Proof.
  intros Hf. repeat split; cbn.
  - apply length_alter.
  - intros i. rewrite list_lookup_alter. case_decide; [subst i|reflexivity].
    destruct (sessions w !! sid); cbn; by rewrite ?Hf.
Qed.

Lemma same_polling_trans w1 w2 w3 :
  same_polling w1 w2 → same_polling w2 w3 → same_polling w1 w3.
Proof.
  intros (? & ? & ? & ? & ? & ? & Hi) (? & ? & ? & ? & ? & ? & Hi').
  repeat split; congruence.
Qed.

Lemma same_polling_render sid w : same_polling w (render sid w).
Proof.
  apply same_polling_alter. intros s. by destruct (mounted s).
Qed.

Lemma same_polling_rerender sid K w : same_polling w (rerender sid K w).
Proof.
  eapply same_polling_trans; [|apply same_polling_render].
  apply same_polling_alter. intros s. by destruct (mounted s).
Qed.

Lemma same_polling_settle p (o : Settled Err (list Item)) w :
  same_polling w (settle_promise p o w).
Proof.
  unfold settle_promise.
  destruct (find_request p (inflight w)) as [r|]; [|by repeat split].
  destruct o as [data|e]; cbn.
  - apply (same_polling_alter _ _
             (set_inflight (filter (λ r', pid r' ≠ p) (inflight w)) w)).
    reflexivity.
  - by repeat split.
Qed.

Lemma unmount_spec sid w :
  registry (unmount sid w) = registry w
  ∧ clock (unmount sid w) = clock w
  ∧ next_timer (unmount sid w) = next_timer w
  ∧ fetch_log (unmount sid w) = fetch_log w
  ∧ length (sessions (unmount sid w)) = length (sessions w)
  ∧ (∀ i, interval <$> sessions (unmount sid w) !! i = interval <$> sessions w !! i)
  ∧ (timers (unmount sid w) = timers w
     ∨ ∃ s id, sessions w !! sid = Some s ∧ mounted s = true
               ∧ interval s = Some id
               ∧ timers (unmount sid w) = filter (λ t, tid t ≠ id) (timers w)).
Proof.
  unfold unmount.
  destruct (sessions w !! sid) as [s|] eqn:Hs; [|by repeat split; auto].
  destruct (mounted s) eqn:Hm; [|by repeat split; auto].
  destruct (same_polling_alter (set_mounted false) sid w) as (_ & _ & _ & _ & _ & Hlen & Hint);
    [reflexivity|].
  destruct (interval s) as [id|] eqn:Hi; cbn; repeat split; eauto 10.
Qed.

(** ** Stopped components *)


Lemma unmount_stops sid w :
  wf w → is_Some (sessions w !! sid) → stopped sid (unmount sid w).
Proof.
  intros [Hreg Hto Hil Hfo] [s Hs].
  destruct (unmount_spec sid w) as (Hrg & _ & _ & _ & Hlen & _ & Hts).
  split; [congruence|]. split.
  { rewrite Hlen. by eapply lookup_lt_Some. }
  unfold timers_of. apply filter_none. intros t Ht Hown.
  destruct Hts as [Hts|(s' & id & Hs' & Hm & Hi & Hts)]; rewrite Hts in Ht.
  - (* nothing was cleared: the component was not mounted *)
    destruct (Hto t Ht) as (s1 & Hs1 & Hi1 & Hm1).
    rewrite Hown, Hs in Hs1. injection Hs1 as <-.
    unfold unmount in Hts. rewrite Hs, Hm1 in Hts.
    rewrite Hi1 in Hts. cbn in Hts.
    assert (Hin : t ∈ filter (λ t', tid t' ≠ tid t) (timers w)) by (by rewrite Hts).
    apply list_elem_of_filter in Hin as [Hne _]. by apply Hne.
  - apply list_elem_of_filter in Ht as [Hne Ht].
    destruct (Hto t Ht) as (s1 & Hs1 & Hi1 & _).
    rewrite Hown, Hs' in Hs1. injection Hs1 as <-.
    rewrite Hi in Hi1. injection Hi1 as ->. by apply Hne.
Qed.

Lemma stopped_tick sid w :
  stopped sid w → stopped sid (tick w) ∧ fetches_of sid (tick w) = fetches_of sid w.
Proof.
  intros (Hreg & Hlt & Hts).
  destruct (tick_fetches_of sid w Hreg) as (new & Hnew & Hlog).
  destruct (tick_spec w Hreg) as (_ & _ & _ & _ & _ & _ & Hrg & Hss & _).
  rewrite Hts in Hnew. apply Forall2_nil_inv_l in Hnew as ->.
  rewrite app_nil_r in Hlog. split; [|exact Hlog].
  split; [congruence|]. split; [by rewrite Hss|].
  by rewrite tick_timers_of, Hts.
Qed.

Lemma stopped_advance ms sid w :
  stopped sid w →
  stopped sid (advance ms w) ∧ fetches_of sid (advance ms w) = fetches_of sid w.
Proof.
  intros Hst. unfold advance. induction ms as [|ms [IH1 IH2]]; [done|].
  rewrite Nat.iter_succ.
  destruct (stopped_tick sid _ IH1) as [H1 H2]. split; [done|congruence].
Qed.

Lemma stopped_same_polling sid w w' :
  same_polling w w' → stopped sid w →
  stopped sid w' ∧ fetches_of sid w' = fetches_of sid w.
Proof.
  intros (Hrg & _ & Hts & _ & Hlog & Hlen & _) (Hreg & Hlt & Hno).
  unfold stopped, timers_of, fetches_of. rewrite Hrg, Hts, Hlog, Hlen. done.
Qed.

Lemma stopped_step sid w ev :
  stopped sid w →
  stopped sid (step w ev) ∧ fetches_of sid (step w ev) = fetches_of sid w.
Proof.
  intros Hst. destruct ev as [K|sid' K|sid'|ms|p data|p e|sid']; cbn.
  - destruct Hst as (Hreg & Hlt & Hno).
    destruct (mount_spec K w Hreg) as [cmd ->].
    unfold stopped, timers_of, fetches_of in *; cbn.
    rewrite !filter_app, Hno, length_app.
    rewrite !(filter_singleton_False _ _ []) by (cbn; lia).
    rewrite !app_nil_r. cbn. repeat split; [done|lia].
  - eapply stopped_same_polling; [apply same_polling_rerender|done].
  - destruct Hst as (Hreg & Hlt & Hno).
    destruct (unmount_spec sid' w) as (Hrg & _ & _ & Hlog & Hlen & _ & Hts).
    unfold stopped, fetches_of, timers_of in *. rewrite Hrg, Hlog, Hlen.
    repeat split; try done.
    destruct Hts as [->|(s & id & _ & _ & _ & ->)]; [done|].
    by rewrite filter_swap, Hno.
  - by apply stopped_advance.
  - eapply stopped_same_polling; [apply same_polling_settle|done].
  - eapply stopped_same_polling; [apply same_polling_settle|done].
  - eapply stopped_same_polling; [apply same_polling_render|done].
Qed.

Lemma stopped_run sid evs w :
  stopped sid w →
  stopped sid (run w evs) ∧ fetches_of sid (run w evs) = fetches_of sid w.
Proof.
  revert w. induction evs as [|ev evs IH]; intros w Hst; [done|].
  rewrite run_cons. destruct (stopped_step sid w ev Hst) as [H1 H2].
  destruct (IH _ H1) as [H3 H4]. split; [done|congruence].
Qed.

(** ** Polling components *)


Lemma mount_polling K w :
  wf w → polling (length (sessions w)) 1 1000 (mount K w).
Proof.
  intros [Hreg Hto Hil Hfo].
  destruct (mount_spec K w Hreg) as [cmd ->].
  unfold polling, fetches_of, timers_of; cbn.
  rewrite !filter_app, length_app; cbn.
  rewrite !decide_True by reflexivity.
  rewrite (filter_none _ (timers w)), (filter_none _ (fetch_log w)); cycle 1.
  { intros r Hr Hown. specialize (Hfo r Hr). lia. }
  { intros t Ht Hown. destruct (Hto t Ht) as (s & Hs & _).
    apply lookup_lt_Some in Hs. lia. }
  repeat split; [done|lia..| ].
  eexists. repeat split; cbn; [lia|].
  intros j Hj. destruct (decide (j < length (sessions w))) as [Hlt|Hge].
  - rewrite lookup_app_l by done.
    destruct (sessions w !! j) as [s|] eqn:Hs; cbn; [|done].
    intros [= Hi]. specialize (Hil j s _ Hs Hi). lia.
  - rewrite lookup_ge_None_2; [done|]. rewrite length_app; cbn. lia.
Qed.

Lemma polling_tick sid c d w :
  polling sid c d w →
  ∃ c' d', polling sid c' d' (tick w)
           ∧ 1000 * c' + (1000 - d') = 1000 * c + (1000 - d) + 1.
Proof.
  intros (Hreg & Hlt & Hd & Hc & t & Ht & Hp & Hdue & Htid & Hothers).
  destruct (tick_fetches_of sid w Hreg) as (new & Hnew & Hlog).
  destruct (tick_spec w Hreg) as (_ & _ & _ & _ & _ & Hck & Hrg & Hss & Hnt & _).
  pose proof (tick_timers_of sid w Hreg) as Hts.
  rewrite Ht in Hts, Hnew. rewrite list_fmap_singleton in Hts.
  destruct (decide (d = 1)) as [->|Hd1].
  - (* the timer fires now *)
    assert (Hdue_now : is_due (S (clock w)) t = true).
    { unfold is_due. apply Nat.eqb_eq. lia. }
    rewrite (filter_singleton_True _ _ []) in Hnew by done.
    apply Forall2_cons_inv_l in Hnew as (r0 & new' & _ & ->%Forall2_nil_inv_l & ->).
    exists (S c), 1000. split; [|lia].
    unfold polling. rewrite Hrg, Hss, Hlog, Hts, Hck, Hnt, length_app; cbn.
    repeat split; [done|done|lia|lia|lia|].
    eexists. split; [reflexivity|].
    unfold reschedule. rewrite Hdue_now; cbn.
    repeat split; [done|lia|done|done].
  - (* not yet *)
    assert (Hdue_now : is_due (S (clock w)) t = false).
    { unfold is_due. apply Nat.eqb_neq. lia. }
    rewrite (filter_singleton_False _ _ []) in Hnew by (by rewrite Hdue_now).
    apply Forall2_nil_inv_l in Hnew as ->.
    exists c, (d - 1). split; [|lia].
    unfold polling. rewrite Hrg, Hss, Hlog, Hts, Hck, Hnt, app_nil_r.
    repeat split; [done|done|lia|lia|done|].
    eexists. split; [reflexivity|].
    unfold reschedule. rewrite Hdue_now.
    repeat split; [done|lia|done|done].
Qed.

Lemma polling_advance ms sid c d w :
  polling sid c d w →
  ∃ c' d', polling sid c' d' (advance ms w)
           ∧ 1000 * c' + (1000 - d') = 1000 * c + (1000 - d) + ms.
Proof.
  intros Hp. unfold advance. induction ms as [|ms (c1 & d1 & Hp1 & Heq1)].
  - exists c, d. split; [done|lia].
  - rewrite Nat.iter_succ.
    destruct (polling_tick _ _ _ _ Hp1) as (c2 & d2 & Hp2 & Heq2).
    exists c2, d2. split; [done|lia].
Qed.

Lemma polling_same_polling sid c d w w' :
  same_polling w w' → polling sid c d w → polling sid c d w'.
Proof.
  intros (Hrg & Hck & Hts & Hnt & Hlog & Hlen & Hint).
  unfold polling, timers_of, fetches_of.
  rewrite Hrg, Hck, Hts, Hnt, Hlog, Hlen.
  intros (? & ? & ? & ? & t & ? & ? & ? & ? & Hothers).
  split_and!; try done; try lia. exists t. split_and!; try done.
  intros j Hj. rewrite Hint. by apply Hothers.
Qed.

Lemma polling_mount K sid c d w :
  polling sid c d w → polling sid c d (mount K w).
Proof.
  intros (Hreg & Hlt & Hd & Hc & t & Ht & Hp & Hdue & Htid & Hothers).
  destruct (mount_spec K w Hreg) as [cmd ->].
  unfold polling, fetches_of, timers_of in *; cbn.
  rewrite !filter_app, length_app; cbn.
  rewrite !decide_False by lia. rewrite !app_nil_r.
  split_and!; try done; try lia. exists t. split_and!; try done; try lia.
  intros j Hj. destruct (decide (j < length (sessions w))) as [Hj'|Hj'].
  - rewrite lookup_app_l by done. by apply Hothers.
  - destruct (decide (j = length (sessions w))) as [->|Hne].
    + rewrite list_lookup_middle by done. cbn. intros [= Heq]. lia.
    + rewrite lookup_ge_None_2; [done|]. rewrite length_app; cbn. lia.
Qed.

Lemma polling_unmount_other sid' sid c d w :
  sid' ≠ sid → polling sid c d w → polling sid c d (unmount sid' w).
Proof.
  intros Hne (Hreg & Hlt & Hd & Hc & t & Ht & Hp & Hdue & Htid & Hothers).
  destruct (unmount_spec sid' w) as (Hrg & Hck & Hnt & Hlog & Hlen & Hint & Hts).
  unfold polling, fetches_of, timers_of in *.
  rewrite Hrg, Hck, Hnt, Hlog, Hlen.
  split_and!; try done; try lia. exists t. split_and!; try done.
  - destruct Hts as [->|(s & id & Hs & _ & Hi & ->)]; [done|].
    rewrite filter_swap, Ht. apply (filter_singleton_True _ _ []).
    intros Heq. apply (Hothers sid' Hne). rewrite Hs. cbn. by rewrite Hi, Heq.
  - intros j Hj. rewrite Hint. by apply Hothers.
Qed.

Lemma polling_step sid c d w ev :
  ev ≠ Unmount sid → polling sid c d w →
  ∃ c' d', polling sid c' d' (step w ev)
           ∧ 1000 * c' + (1000 - d') = 1000 * c + (1000 - d) + elapsed [ev].
Proof.
  intros Hev Hp.
  destruct ev as [K|sid' K|sid'|ms|p data|p e|sid'];
    cbn -[Nat.mul Nat.add Nat.sub];
    try (exists c, d; split; [|lia]).
  - by apply polling_mount.
  - eapply polling_same_polling; [apply same_polling_rerender|done].
  - apply polling_unmount_other; [congruence|done].
  - destruct (polling_advance ms _ _ _ _ Hp) as (c' & d' & Hp' & Heq).
    exists c', d'. split; [done|lia].
  - eapply polling_same_polling; [apply same_polling_settle|done].
  - eapply polling_same_polling; [apply same_polling_settle|done].
  - eapply polling_same_polling; [apply same_polling_render|done].
Qed.

Lemma elapsed_cons ev evs : elapsed (ev :: evs) = elapsed [ev] + elapsed evs.
Proof. destruct ev; cbn; lia. Qed.

Lemma polling_run sid evs c d w :
  Unmount sid ∉ evs → polling sid c d w →
  ∃ c' d', polling sid c' d' (run w evs)
           ∧ 1000 * c' + (1000 - d') = 1000 * c + (1000 - d) + elapsed evs.
Proof.
  revert c d w. induction evs as [|ev evs IH]; intros c d w Hno Hp.
  - exists c, d. split; [done|cbn; lia].
  - apply not_elem_of_cons in Hno as [Hev Hno].
    destruct (polling_step sid c d w ev) as (c1 & d1 & Hp1 & Heq1); [done..|].
    destruct (IH c1 d1 _ Hno Hp1) as (c2 & d2 & Hp2 & Heq2).
    exists c2, d2. rewrite run_cons, elapsed_cons. split; [done|lia].
Qed.

(** ** The endpoint a component polls *)


Lemma mount_bound K w :
  wf w → bound (length (sessions w)) K (clock w) (mount K w).
Proof.
  intros [Hreg Hto Hil Hfo].
  destruct (mount_spec K w Hreg) as [cmd ->].
  unfold bound, fetches_of, timers_of; cbn -[Nat.mul]. rewrite length_app; cbn -[Nat.mul].
  split_and!; [done|lia|..].
  - intros t [Hown [Ht| ->%list_elem_of_singleton]%elem_of_app]%list_elem_of_filter.
    + destruct (Hto t Ht) as (s & Hs%lookup_lt_Some & _). lia.
    + split_and!; [done..|]. exists 1. cbn -[Nat.mul]. lia.
  - intros r [Hown [Hr| ->%list_elem_of_singleton]%elem_of_app]%list_elem_of_filter.
    + specialize (Hfo r Hr). lia.
    + split; [done|]. exists 0. cbn -[Nat.mul]. lia.
Qed.

Lemma reschedule_for K start now t :
  timer_for K start t → timer_for K start (reschedule now t).
Proof.
  intros (HK & Hp & k & Hk). unfold reschedule.
  destruct (is_due now t); [|by split_and!; eauto].
  split_and!; [done..|]. exists (S k). cbn -[Nat.mul]. lia.
Qed.

Lemma fired_for K start now t r :
  timer_for K start t → is_due now t = true → fired now t r → request_for K start r.
Proof.
  intros (HK & _ & k & Hk) Hdue%Nat.eqb_eq (_ & Hend & Htime).
  split; [congruence|]. exists k. lia.
Qed.

Lemma bound_tick sid K start w : bound sid K start w → bound sid K start (tick w).
Proof.
  intros (Hreg & Hlt & Hts & Hfs).
  destruct (tick_fetches_of sid w Hreg) as (new & Hnew & Hlog).
  destruct (tick_spec w Hreg) as (_ & _ & _ & _ & _ & _ & Hrg & Hss & _).
  unfold bound. rewrite Hrg, Hss, Hlog, tick_timers_of by done.
  split_and!; try done.
  - intros t' (t & -> & Ht)%list_elem_of_fmap. by apply reschedule_for, Hts.
  - intros r [Hr|Hr]%elem_of_app; [auto|].
    apply list_elem_of_lookup in Hr as [i Hr].
    destruct (Forall2_lookup_r _ _ _ _ _ Hnew Hr) as (t & Ht & Hfired).
    apply list_elem_of_lookup_2, list_elem_of_filter in Ht as [Hdue Ht].
    eapply fired_for; eauto.
Qed.

Lemma bound_same_polling sid K start w w' :
  same_polling w w' → bound sid K start w → bound sid K start w'.
Proof.
  intros (Hrg & _ & Hts & _ & Hlog & Hlen & _).
  unfold bound, timers_of, fetches_of. by rewrite Hrg, Hts, Hlog, Hlen.
Qed.

Lemma bound_step sid K start w ev : bound sid K start w → bound sid K start (step w ev).
Proof.
  intros Hb. destruct ev as [K'|sid' K'|sid'|ms|p data|p e|sid']; cbn -[Nat.mul].
  - destruct Hb as (Hreg & Hlt & Hts & Hfs).
    destruct (mount_spec K' w Hreg) as [cmd ->].
    unfold bound, fetches_of, timers_of in *; cbn -[Nat.mul].
    rewrite !filter_app, length_app; cbn -[Nat.mul].
    rewrite !decide_False by lia. rewrite !app_nil_r.
    split_and!; try done. lia.
  - eapply bound_same_polling; [apply same_polling_rerender|done].
  - destruct Hb as (Hreg & Hlt & Hts & Hfs).
    destruct (unmount_spec sid' w) as (Hrg & _ & _ & Hlog & Hlen & _ & Htm).
    unfold bound, fetches_of, timers_of in *. rewrite Hrg, Hlog, Hlen.
    split_and!; try done.
    destruct Htm as [->|(s & id & _ & _ & _ & ->)]; [done|].
    rewrite filter_swap. intros t [_ Ht]%list_elem_of_filter. auto.
  - unfold advance. induction ms as [|ms IH]; [done|].
    rewrite Nat.iter_succ. by apply bound_tick.
  - eapply bound_same_polling; [apply same_polling_settle|done].
  - eapply bound_same_polling; [apply same_polling_settle|done].
  - eapply bound_same_polling; [apply same_polling_render|done].
Qed.

Lemma bound_run sid K start evs w : bound sid K start w → bound sid K start (run w evs).
Proof.
  revert w. induction evs as [|ev evs IH]; intros w Hb; [done|].
  rewrite run_cons. by apply IH, bound_step.
Qed.

(** ** Starting and stopping a poll session *)

(** The requests of a freshly mounted component: how many, for which
    endpoint and when. Shared by the theorems on the polling period. *)
Lemma fresh_component_count K w evs :
  wf w → Unmount (length (sessions w)) ∉ evs →
  length (fetches_of (length (sessions w)) (run (mount K w) evs))
  = 1 + elapsed evs / 1000
  ∧ ∀ r, r ∈ fetches_of (length (sessions w)) (run (mount K w) evs) →
         r_endpoint r = K ∧ ∃ k, r_time r = clock w + 1000 * k.
Proof.
  intros Hw Hno. pose proof (mount_polling K w Hw) as Hp.
  pose proof (mount_bound K w Hw) as Hb. split.
  - destruct (polling_run _ evs _ _ _ Hno Hp) as (c & d & Hp' & Heq).
    destruct Hp' as (_ & _ & Hd & <- & _).
    assert (Hq : length (fetches_of (length (sessions w)) (run (mount K w) evs))
                 = (elapsed evs + 1 * 1000) / 1000).
    { apply (Nat.div_unique _ 1000 _ (1000 - d)); lia. }
    rewrite Hq, Nat.div_add by lia. lia.
  - by destruct (bound_run _ _ _ evs _ Hb) as (_ & _ & _ & Hfs).
Qed.

(** C1. For every endpoint key [K], mounting a [ClientDataProvider] on a
    well-formed page issues exactly one fetch, for [K], at once: the request
    log grows by that one request, the clock has not moved, and the
    component's only timer has period 1000 and is first due 1000 ms later.
    From then on, as long as the component is not unmounted, whatever else
    happens on the page, the number of fetches it has issued is
    [1 + elapsed / 1000], all of them for [K] and each issued a multiple of
    1000 ms after the mount. *)
Theorem mount_fetches_once_then_every_1000ms K w :
  wf w →
  (∃ r, fetch_log (step w (Mount K)) = fetch_log w ++ [r]
        ∧ r_owner r = length (sessions w) ∧ r_endpoint r = K
        ∧ r_time r = clock w)
  ∧ clock (step w (Mount K)) = clock w
  ∧ (∃ t, timers_of (length (sessions w)) (step w (Mount K)) = [t]
          ∧ period t = 1000 ∧ due t = clock w + 1000)
  ∧ ∀ evs, Unmount (length (sessions w)) ∉ evs →
      length (fetches_of (length (sessions w)) (run (step w (Mount K)) evs))
      = 1 + elapsed evs / 1000
      ∧ ∀ r, r ∈ fetches_of (length (sessions w)) (run (step w (Mount K)) evs) →
             r_endpoint r = K ∧ ∃ k, r_time r = clock w + 1000 * k.
Proof.
  intros Hw. pose proof (mount_polling K w Hw) as Hp.
  change (step w (Mount K)) with (mount K w).
  split_and!.
  - destruct (mount_spec K w (wf_registry w Hw)) as [cmd ->]. cbn. eauto.
  - destruct (mount_spec K w (wf_registry w Hw)) as [cmd ->]. done.
  - destruct Hp as (_ & _ & _ & _ & t & Ht & Hper & Hdue & _).
    destruct (mount_spec K w (wf_registry w Hw)) as [cmd Heq].
    rewrite Heq in Hdue. cbn in Hdue. eauto.
  - intros evs Hno. by apply fresh_component_count.
Qed.

(** C3. Once the cleanup of a component has run ([clearInterval]), the
    component issues no further fetch, whatever happens on the page
    afterwards and however far the clock advances: its request log stays
    what it was, and it owns no timer. *)
Theorem no_fetch_after_unmount sid w evs :
  wf w → is_Some (sessions w !! sid) →
  fetches_of sid (run (step w (Unmount sid)) evs) = fetches_of sid w
  ∧ timers_of sid (run (step w (Unmount sid)) evs) = [].
Proof.
  intros Hw Hs. change (step w (Unmount sid)) with (unmount sid w).
  pose proof (unmount_stops sid w Hw Hs) as Hst.
  destruct (stopped_run sid evs _ Hst) as [(_ & _ & Hts) Hfs].
  split; [|done]. rewrite Hfs. unfold fetches_of.
  by destruct (unmount_spec sid w) as (_ & _ & _ & -> & _).
Qed.


(** C7. Two providers mounted one after the other for the same endpoint [K]
    are two sessions: each issues its own immediate fetch and runs its own
    timer. From the initial page, at t = 1000 ms the data source has been
    called 4 times for [K], twice by each component (at t = 999 ms: twice in
    all), and two timers are live; at any time [ms] each of the two has
    issued [1 + ms / 1000] requests. *)
Theorem two_sessions_poll_twice K :
  length (fetches_for K (run init [Mount K; Mount K; Advance 1000])) = 4
  ∧ length (fetch_log (run init [Mount K; Mount K; Advance 1000])) = 4
  ∧ length (fetches_of 0 (run init [Mount K; Mount K; Advance 1000])) = 2
  ∧ length (fetches_of 1 (run init [Mount K; Mount K; Advance 1000])) = 2
  ∧ length (fetch_log (run init [Mount K; Mount K; Advance 999])) = 2
  ∧ length (timers (run init [Mount K; Mount K; Advance 1000])) = 2
  ∧ ∀ ms,
      length (fetches_of 0 (run init [Mount K; Mount K; Advance ms])) = 1 + ms / 1000
      ∧ length (fetches_of 1 (run init [Mount K; Mount K; Advance ms])) = 1 + ms / 1000.
Proof.
  split_and!; try (destruct K; vm_compute; reflexivity).
  intros ms. split.
  - pose proof (fresh_component_count K init
                  [Mount K; Advance ms] wf_init) as Hc.
    change (length (sessions init)) with 0 in Hc.
    destruct Hc as [Hc _].
    + intros [[=]|[[=]|[]%not_elem_of_nil]%elem_of_cons]%elem_of_cons.
    + cbn [elapsed] in Hc. rewrite Nat.add_0_r in Hc. exact Hc.
  - pose proof (fresh_component_count K (mount K init)
                  [Advance ms] (wf_mount K init wf_init)) as Hc.
    assert (Hlen : length (sessions (mount K init)) = 1)
      by (destruct K; reflexivity).
    rewrite Hlen in Hc. destruct Hc as [Hc _].
    + intros [[=]|[]%not_elem_of_nil]%elem_of_cons.
    + cbn [elapsed] in Hc. rewrite Nat.add_0_r in Hc. exact Hc.
Qed.

(** ** The registry *)

Lemma fire_keeps w t :
  registry (fire w t) = registry w ∧ sessions (fire w t) = sessions w.
Proof.
  unfold fire, post.
  by destruct (get (t_endpoint t) (clientEndpoints (registry w))).
Qed.

Lemma fire_all_keeps ts w :
  registry (foldl fire w ts) = registry w ∧ sessions (foldl fire w ts) = sessions w.
Proof.
  revert w. induction ts as [|t ts IH]; intros w; [done|]. cbn [foldl].
  destruct (IH (fire w t)) as [-> ->]. apply fire_keeps.
Qed.

Lemma tick_keeps w :
  registry (tick w) = registry w ∧ sessions (tick w) = sessions w.
Proof.
  unfold tick. cbn.
  apply (fire_all_keeps _ (set_clock (S (clock w)) w)).
Qed.

Lemma advance_keeps ms w :
  registry (advance ms w) = registry w ∧ sessions (advance ms w) = sessions w.
Proof.
  unfold advance. induction ms as [|ms [IH1 IH2]]; [done|].
  rewrite Nat.iter_succ. destruct (tick_keeps (Nat.iter ms tick w)) as [-> ->]. done.
Qed.

Lemma registry_step w ev : registry (step w ev) = registry w.
Proof.
  destruct ev as [K|sid K|sid|ms|p data|p e|sid]; cbn.
  - unfold mount, post; cbn.
    by destruct (get K (clientEndpoints (registry w))).
  - done.
  - unfold unmount. destruct (sessions w !! sid) as [s|]; [|done].
    destruct (mounted s); [|done]. by destruct (interval s).
  - apply advance_keeps.
  - unfold settle_promise. by destruct (find_request p (inflight w)).
  - unfold settle_promise. by destruct (find_request p (inflight w)).
  - done.
Qed.

Lemma registry_run evs w : registry (run w evs) = registry w.
Proof.
  revert w. induction evs as [|ev evs IH]; intros w; [done|].
  by rewrite run_cons, IH, registry_step.
Qed.

(** C9. The endpoint keys are the closed set sweeps, notebooks,
    tensorboards. The table of fetch functions and the table of contexts
    have exactly these keys, each once, so either lookup succeeds for every
    key; the three contexts are three distinct objects. Both tables are
    built when the module is loaded and no operation of the page ever writes
    them. *)
Theorem registry_invariant :
  (∀ K, K ∈ [sweeps; notebooks; tensorboards])
  ∧ keys (clientEndpoints (@module_registry Item)) = [sweeps; notebooks; tensorboards]
  ∧ keys (clientDataContexts (@module_registry Item)) = [sweeps; notebooks; tensorboards]
  ∧ NoDup (keys (clientEndpoints (@module_registry Item)))
  ∧ NoDup (keys (clientDataContexts (@module_registry Item)))
  ∧ NoDup (ctx_id <$> (clientDataContexts (@module_registry Item)).*2)
  ∧ (∀ K, is_Some (get K (clientEndpoints (@module_registry Item)))
          ∧ is_Some (get K (clientDataContexts (@module_registry Item))))
  ∧ registry init = module_registry
  ∧ (∀ w ev, registry (step w ev) = registry w)
  ∧ ∀ evs, registry (run init evs) = module_registry.
Proof.
  split_and!; try reflexivity.
  - intros []; repeat constructor.
  - apply (bool_decide_unpack _). by vm_compute.
  - apply (bool_decide_unpack _). by vm_compute.
  - apply (bool_decide_unpack _). by vm_compute.
  - intros K. destruct K; cbn; eauto.
  - apply registry_step.
  - intros evs. by rewrite registry_run.
Qed.

(** ** Settling a request *)

Lemma resolve_spec p r data s w :
  find_request p (inflight w) = Some r →
  sessions w !! r_owner r = Some s →
  sessions (step w (Resolve p data)) !! r_owner r
    = Some (set_pending (pending s ++ [data]) s)
  ∧ inflight (step w (Resolve p data)) = filter (λ r', pid r' ≠ p) (inflight w)
  ∧ registry (step w (Resolve p data)) = registry w.
Proof.
  intros Hr Hs. cbn. unfold settle_promise. rewrite Hr. cbn.
  by rewrite list_lookup_alter_eq, Hs.
Qed.

Lemma reject_spec p r (e : Err) w :
  find_request p (inflight w) = Some r →
  step w (Reject p e)
  = enqueueSnackbar fetch_error_snack
      (set_inflight (filter (λ r', pid r' ≠ p) (inflight w)) w).
Proof. intros Hr. cbn. unfold settle_promise. by rewrite Hr. Qed.

Lemma flush_spec sid s w :
  sessions w !! sid = Some s → mounted s = true →
  sessions (step w (Flush sid)) !! sid
    = Some (Build_Session (props_endpoint s)
              (foldl reducer (state s) (pending s)) [] true (interval s))
  ∧ inflight (step w (Flush sid)) = inflight w
  ∧ registry (step w (Flush sid)) = registry w.
Proof.
  intros Hs Hm. cbn. by rewrite list_lookup_alter_eq, Hs; cbn; rewrite Hm.
Qed.

Lemma foldl_reducer_snoc (st : list Item) q data :
  foldl reducer st (q ++ [data]) = data.
Proof. by rewrite foldl_snoc. Qed.

Lemma find_request_filter_ne p p' (rs : list Request) :
  p ≠ p' →
  find_request p (filter (λ r, pid r ≠ p') rs) = find_request p rs.
Proof.
  intros Hne. induction rs as [|r rs IH]; [done|].
  destruct (decide (pid r = p')) as [Heq|Hneq].
  - rewrite filter_cons_False by (by intros H). cbn.
    rewrite decide_False by congruence. exact IH.
  - rewrite filter_cons_True by done. cbn. by rewrite IH.
Qed.

Lemma useContext_ext ctx anc w w' :
  sessions w' = sessions w → registry w' = registry w →
  useContext ctx anc w' = useContext ctx anc w.
Proof.
  intros Hs Hr. induction anc as [|sid anc IH]; cbn; [done|].
  by rewrite Hs, Hr, IH.
Qed.

Lemma useClientDataState_ext K anc w w' :
  sessions w' = sessions w → registry w' = registry w →
  useClientDataState K anc w' = useClientDataState K anc w.
Proof.
  intros Hs Hr. unfold useClientDataState. rewrite Hr.
  destruct (get K (clientDataContexts (registry w))); [|done].
  by rewrite (useContext_ext _ _ w w').
Qed.

(** The reader right below a mounted provider reads that provider's state. *)
Lemma read_below_provider sid s anc w :
  registry w = module_registry →
  sessions w !! sid = Some s → mounted s = true →
  useClientDataState (props_endpoint s) (sid :: anc) w = Some (state s).
Proof.
  intros Hreg Hs Hm. unfold useClientDataState. rewrite Hreg.
  destruct (endpoint_context_defined (props_endpoint s)) as (ctx & Hctx & _).
  rewrite Hctx. cbn. rewrite Hs, Hreg, Hctx, Hm. cbn.
  by rewrite bool_decide_eq_true_2.
Qed.

(** A resolution followed by a render of the (mounted) owner. *)
Lemma resolve_flush_snapshot p r s (S : list Item) w :
  find_request p (inflight w) = Some r →
  sessions w !! r_owner r = Some s → mounted s = true →
  sessions (run w [Resolve p S; Flush (r_owner r)]) !! r_owner r
  = Some (Build_Session (props_endpoint s) S [] true (interval s)).
Proof.
  intros Hr Hs Hm. rewrite !run_cons.
  destruct (resolve_spec p r S s w Hr Hs) as (Hs1 & _ & _).
  destruct (flush_spec (r_owner r) _ _ Hs1 Hm) as (Hs2 & _ & _).
  cbn [pending state set_pending] in Hs2. rewrite foldl_reducer_snoc in Hs2.
  exact Hs2.
Qed.

Lemma advance_inflight ms w :
  registry w = module_registry →
  ∃ new, inflight (advance ms w) = inflight w ++ new
         ∧ fetch_log (advance ms w) = fetch_log w ++ new.
Proof.
  intros Hreg. unfold advance. induction ms as [|ms (new & Hfl & Hlog)].
  - exists []. by rewrite !app_nil_r.
  - rewrite Nat.iter_succ.
    destruct (tick_spec (Nat.iter ms tick w)) as (new' & _ & Hlog' & Hfl' & _).
    { destruct (advance_keeps ms w) as [Hrg _]. unfold advance in Hrg. congruence. }
    exists (new ++ new'). by rewrite Hlog', Hfl', Hlog, Hfl, !app_assoc.
Qed.

(** C4. When the request [p] of any endpoint is rejected with any error [E]:
    no component changes, so every reader reads what it read before; exactly
    one notification is appended, the fixed one of severity "error"; nothing
    escapes to the event loop (no unhandled rejection); and the page that
    results is the same for every other error [E']. *)
Theorem rejection_is_contained p r (E : Err) w :
  find_request p (inflight w) = Some r →
  sessions (step w (Reject p E)) = sessions w
  ∧ (∀ K anc, useClientDataState K anc (step w (Reject p E))
              = useClientDataState K anc w)
  ∧ notifications (step w (Reject p E)) = notifications w ++ [fetch_error_snack]
  ∧ severity fetch_error_snack = "error"%string
  ∧ uncaught (step w (Reject p E)) = uncaught w
  ∧ ∀ E' : Err, step w (Reject p E') = step w (Reject p E).
Proof.
  intros Hr. rewrite (reject_spec p r E w Hr). split_and!; try done.
  - intros K anc. by apply useClientDataState_ext.
  - intros E'. by rewrite (reject_spec p r E' w Hr).
Qed.


(** C6. Fetches are neither cancelled nor queued: while the clock advances,
    every request a timer issues joins the requests in flight, and none of
    those already in flight is dropped. When two requests [p1] and [p2] of
    one mounted component are in flight together, whichever was issued
    first, and [p2] resolves before [p1], the snapshot after the render is
    the result of [p1], the one that completed last (also when the component
    renders in between). *)
Theorem last_completion_wins p1 p2 r1 r2 s (S1 S2 : list Item) w :
  registry w = module_registry →
  p1 ≠ p2 →
  find_request p1 (inflight w) = Some r1 →
  find_request p2 (inflight w) = Some r2 →
  r_owner r2 = r_owner r1 →
  sessions w !! r_owner r1 = Some s → mounted s = true →
  (∀ ms, ∃ new, inflight (advance ms w) = inflight w ++ new
                ∧ fetch_log (advance ms w) = fetch_log w ++ new)
  ∧ snapshot (r_owner r1)
      (run w [Resolve p2 S2; Resolve p1 S1; Flush (r_owner r1)]) = Some S1
  ∧ snapshot (r_owner r1)
      (run w [Resolve p2 S2; Flush (r_owner r1); Resolve p1 S1; Flush (r_owner r1)])
    = Some S1.
Proof.
  intros Hreg Hne Hr1 Hr2 Hown Hs Hm.
  split; [intros ms; by apply advance_inflight|].
  rewrite <- Hown in Hs.
  destruct (resolve_spec p2 r2 S2 s w Hr2 Hs) as (Hs1 & Hfl1 & _).
  rewrite Hown in Hs1.
  assert (Hr1' : find_request p1 (inflight (step w (Resolve p2 S2))) = Some r1).
  { by rewrite Hfl1, find_request_filter_ne. }
  unfold snapshot. split.
  - rewrite run_cons.
    by rewrite (resolve_flush_snapshot p1 r1 _ S1 _ Hr1' Hs1 Hm).
  - do 2 rewrite run_cons.
    destruct (flush_spec (r_owner r1) _ _ Hs1 Hm) as (Hs2 & Hfl2 & _).
    rewrite <- Hfl2 in Hr1'.
    by rewrite (resolve_flush_snapshot p1 r1 _ S1 _ Hr1' Hs2 eq_refl).
Qed.

(** ** Before the first result *)


Lemma blank_alter (f : Session Item → Session Item) sid ss :
  (∀ s, state s = [] ∧ pending s = [] → state (f s) = [] ∧ pending (f s) = []) →
  blank ss → blank (alter f sid ss).
Proof. intros Hf Hb. apply Forall_alter; [done|]. intros s _. apply Hf. Qed.

Lemma blank_render sid ss :
  blank ss →
  blank (alter (λ s : Session Item,
                  if mounted s
                  then Build_Session (props_endpoint s)
                         (foldl reducer (state s) (pending s)) [] true (interval s)
                  else s) sid ss).
Proof.
  apply blank_alter. intros s [Hst Hq].
  destruct (mounted s); cbn; [|done]. by rewrite Hst, Hq.
Qed.

Lemma blank_step w ev :
  is_resolve ev = false → blank (sessions w) → blank (sessions (step w ev)).
Proof.
  intros Hev Hb. destruct ev as [K|sid K|sid|ms|p data|p e|sid]; cbn; try done.
  - assert (Hb' : blank (sessions w ++ [Build_Session K [] [] true None])).
    { apply Forall_app_2; [done|]. by apply Forall_singleton. }
    unfold mount, post; cbn.
    destruct (get K (clientEndpoints (registry w))); cbn; [|done].
    by apply blank_alter.
  - apply blank_render. cbn. apply blank_alter; [|done].
    intros s. by destruct (mounted s).
  - unfold unmount. destruct (sessions w !! sid) as [s|]; [|done].
    destruct (mounted s); [|done].
    assert (Hb' : blank (alter (set_mounted false) sid (sessions w)))
      by (by apply blank_alter).
    by destruct (interval s).
  - by destruct (advance_keeps ms w) as [_ ->].
  - unfold settle_promise. by destruct (find_request p (inflight w)).
  - by apply blank_render.
Qed.

Lemma blank_run evs w :
  Forall (λ ev, is_resolve ev = false) evs →
  blank (sessions w) → blank (sessions (run w evs)).
Proof.
  revert w. induction evs as [|ev evs IH]; intros w Hevs Hb; [done|].
  apply Forall_cons in Hevs as [Hev Hevs].
  rewrite run_cons. by apply IH, blank_step.
Qed.

Lemma blank_useContext ctx anc w :
  blank (sessions w) → ctx_default ctx = [] → useContext ctx anc w = [].
Proof.
  intros Hb Hdef. induction anc as [|sid anc IH]; cbn; [done|].
  destruct (sessions w !! sid) as [s|] eqn:Hs; [|done].
  destruct (get (props_endpoint s) (clientDataContexts (registry w))); [|done].
  destruct (mounted s && bool_decide (ctx_id c = ctx_id ctx)); [|done].
  by destruct (Forall_lookup_1 _ _ _ _ Hb Hs).
Qed.

(** C8. As long as no request has resolved, every reader of every endpoint,
    wherever it sits in the tree, reads the empty sequence, and every
    component's state is empty. In particular a component is mounted with
    the empty state, and the default value of each context is empty. *)
Theorem snapshot_empty_before_first_result evs :
  Forall (λ ev, is_resolve ev = false) evs →
  (∀ K anc, useClientDataState K anc (run init evs) = Some [])
  ∧ (∀ sid s, sessions (run init evs) !! sid = Some s → state s = [])
  ∧ (∀ K w, snapshot (length (sessions w)) (step w (Mount K)) = Some [])
  ∧ (∀ K ctx, get K (clientDataContexts (@module_registry Item)) = Some ctx →
              ctx_default ctx = []).
Proof.
  intros Hevs.
  assert (Hb : blank (sessions (run init evs))).
  { apply blank_run; [done|]. constructor. }
  split_and!.
  - intros K anc. unfold useClientDataState. rewrite registry_run. cbn [registry init].
    destruct (endpoint_context_defined K) as (ctx & -> & Hdef).
    by rewrite blank_useContext.
  - intros sid s Hs. by destruct (Forall_lookup_1 _ _ _ _ Hb Hs).
  - intros K w. unfold snapshot. cbn. unfold mount, post; cbn.
    destruct (get K (clientEndpoints (registry w))); cbn.
    + rewrite list_lookup_alter_eq, list_lookup_middle by done. done.
    + by rewrite list_lookup_middle.
  - intros K ctx Hctx. destruct (endpoint_context_defined K) as (ctx' & Hctx' & Hdef).
    congruence.
Qed.

(** ** Results that arrive after the stop *)


Lemma frozen_alter (f : Session Item → Session Item) sid' sid st w w' :
  (∀ s, mounted s = false → mounted (f s) = false ∧ state (f s) = state s) →
  sessions w' = alter f sid' (sessions w) →
  frozen sid st w → frozen sid st w'.
Proof.
  intros Hf Heq (s & Hs & Hm & Hst). unfold frozen.
  rewrite Heq, list_lookup_alter. case_decide; [subst sid'|by eauto].
  rewrite Hs; cbn. destruct (Hf s Hm) as [Hm' Hst']. exists (f s).
  split_and!; congruence.
Qed.

Lemma frozen_same_sessions sid st w w' :
  sessions w' = sessions w → frozen sid st w → frozen sid st w'.
Proof. intros Heq (s & Hs & Hm & Hst). exists s. by rewrite Heq. Qed.

Lemma frozen_render sid' sid st w : frozen sid st w → frozen sid st (render sid' w).
Proof.
  eapply frozen_alter; [|reflexivity]. intros s Hm. cbn. by rewrite Hm.
Qed.

Lemma frozen_step sid st w ev : frozen sid st w → frozen sid st (step w ev).
Proof.
  intros Hf. destruct ev as [K|sid' K|sid'|ms|p data|p e|sid']; cbn.
  - destruct Hf as (s & Hs & Hm & Hst).
    assert (Hlt : sid < length (sessions w)) by (by eapply lookup_lt_Some).
    exists s. split_and!; [|done..].
    unfold mount, post; cbn.
    destruct (get K (clientEndpoints (registry w))); cbn.
    + rewrite list_lookup_alter_ne by lia. by rewrite lookup_app_l.
    + by rewrite lookup_app_l.
  - apply frozen_render. revert Hf. eapply frozen_alter; [|reflexivity].
    intros s Hm. cbn. by rewrite Hm.
  - unfold unmount. destruct (sessions w !! sid') as [s'|] eqn:Hs'; [|done].
    destruct (mounted s') eqn:Hm'; [|done].
    assert (Hf' : frozen sid st
              (set_sessions (alter (set_mounted false) sid' (sessions w)) w)).
    { revert Hf. eapply frozen_alter; [|reflexivity]. by intros s Hm. }
    destruct (interval s'); [|done].
    revert Hf'. by apply frozen_same_sessions.
  - revert Hf. apply frozen_same_sessions. by destruct (advance_keeps ms w).
  - unfold settle_promise. destruct (find_request p (inflight w)) as [r|]; [|done].
    cbn. revert Hf. eapply frozen_alter; [|reflexivity]. by intros s Hm.
  - unfold settle_promise. destruct (find_request p (inflight w)) as [r|]; [|done].
    done.
  - by apply frozen_render.
Qed.

Lemma frozen_run sid st evs w : frozen sid st w → frozen sid st (run w evs).
Proof.
  revert w. induction evs as [|ev evs IH]; intros w Hf; [done|].
  rewrite run_cons. by apply IH, frozen_step.
Qed.

(** C2 (as the code has it). The publish step is not guarded: when a request
    whose owner has been unmounted resolves, the handler still calls
    [dispatch], which queues the result on the unmounted component, and no
    request is issued. The result is never rendered: whatever happens
    afterwards, the component stays unmounted and its rendered state is what
    it was at the stop. *)
Theorem result_after_unmount_is_queued_not_rendered p r s (S : list Item) w :
  find_request p (inflight w) = Some r →
  sessions w !! r_owner r = Some s → mounted s = false →
  sessions (step w (Resolve p S)) !! r_owner r
    = Some (set_pending (pending s ++ [S]) s)
  ∧ step w (Resolve p S)
    = dispatch (r_owner r) S (set_inflight (filter (λ r', pid r' ≠ p) (inflight w)) w)
  ∧ fetch_log (step w (Resolve p S)) = fetch_log w
  ∧ ∀ evs, ∃ s', sessions (run (step w (Resolve p S)) evs) !! r_owner r = Some s'
                 ∧ mounted s' = false ∧ state s' = state s.
Proof.
  intros Hr Hs Hm.
  destruct (resolve_spec p r S s w Hr Hs) as (Hs1 & _ & _).
  split_and!; [done| | |].
  - cbn. unfold settle_promise. by rewrite Hr.
  - by destruct (same_polling_settle p (Fulfilled S) w) as (_ & _ & _ & _ & Hlog & _).
  - intros evs. apply (frozen_run (r_owner r) (state s) evs).
    eexists. split_and!; [exact Hs1|done..].
Qed.

End Properties.

(** * The theorems at concrete pages *)

Lemma mount_fetches_once_then_every_1000ms_witness :
  wf (@init nat)
  ∧ length (fetches_of 0 (run (Err := unit) (mount sweeps (@init nat)) [Advance 2500])) = 3.
Proof.
  split; [apply wf_init|].
  destruct (mount_fetches_once_then_every_1000ms (Item := nat) (Err := unit)
              sweeps init wf_init)
    as (_ & _ & _ & Hcount).
  destruct (Hcount [Advance 2500]) as [Hc _].
  - intros [[=]|[]%not_elem_of_nil]%elem_of_cons.
  - exact Hc.
Defined.

(** C2, as stated, fails: on the page [stopped_in_flight] the component 0 is
    unmounted and its request 0 is in flight; when that request resolves
    with [[7]], [dispatch] runs all the same: the result joins the update
    queue of the unmounted component. *)
Lemma dispatch_after_unmount_counterexample :
  wf stopped_in_flight
  ∧ sessions stopped_in_flight !! 0 = Some (sweeps_session false)
  ∧ find_request 0 (inflight stopped_in_flight) = Some (sweeps_request 0 0)
  ∧ sessions (step (Err := unit) stopped_in_flight (Resolve 0 [7])) !! 0
    = Some (set_pending [[7]] (sweeps_session false))
  ∧ sessions (step (Err := unit) stopped_in_flight (Resolve 0 [7]))
    ≠ sessions stopped_in_flight.
Proof.
  split_and!; try (vm_compute; reflexivity).
  - apply wf_run, wf_init.
  - intros Heq. apply (f_equal (λ ss, pending <$> ss !! 0)) in Heq. discriminate Heq.
Qed.

Lemma result_after_unmount_is_queued_not_rendered_witness :
  find_request 0 (inflight stopped_in_flight) = Some (sweeps_request 0 0)
  ∧ sessions stopped_in_flight !! 0 = Some (sweeps_session false)
  ∧ mounted (sweeps_session false) = false
  ∧ ∃ s', sessions (run (Err := unit) (step (Err := unit) stopped_in_flight (Resolve 0 [7]))
                      [Flush 0; Advance 3000; Flush 0]) !! 0 = Some s'
          ∧ mounted s' = false ∧ state s' = [].
Proof.
  split_and!; [vm_compute; reflexivity..|].
  destruct (result_after_unmount_is_queued_not_rendered (Err := unit)
              0 (sweeps_request 0 0) (sweeps_session false) [7] stopped_in_flight
              eq_refl eq_refl eq_refl)
    as (_ & _ & _ & Hfrozen).
  exact (Hfrozen [Flush 0; Advance 3000; Flush 0]).
Defined.

Lemma no_fetch_after_unmount_witness :
  wf two_in_flight ∧ is_Some (sessions two_in_flight !! 0)
  ∧ fetches_of 0 (run (Err := unit) (step (Err := unit) two_in_flight (Unmount 0))
                    [Advance 5000; Flush 0])
    = [sweeps_request 0 0; sweeps_request 1 1000].
Proof.
  split_and!.
  - apply wf_run, wf_init.
  - vm_compute. by eexists.
  - destruct (no_fetch_after_unmount (Err := unit) 0 two_in_flight [Advance 5000; Flush 0])
      as [Hfs _]; [apply wf_run, wf_init|vm_compute; by eexists|].
    rewrite Hfs. vm_compute. reflexivity.
Defined.

Lemma rejection_is_contained_witness :
  find_request 0 (inflight one_mounted) = Some (sweeps_request 0 0)
  ∧ sessions (step one_mounted (Reject 0 "boom"%string)) = sessions one_mounted
  ∧ notifications (step one_mounted (Reject 0 "boom"%string)) = [fetch_error_snack].
Proof.
  split; [vm_compute; reflexivity|].
  destruct (rejection_is_contained 0 (sweeps_request 0 0) "boom"%string one_mounted eq_refl)
    as (Hss & _ & Hno & _).
  split; [exact Hss|exact Hno].
Defined.


Lemma last_completion_wins_witness :
  registry two_in_flight = module_registry
  ∧ 0 ≠ 1
  ∧ find_request 0 (inflight two_in_flight) = Some (sweeps_request 0 0)
  ∧ find_request 1 (inflight two_in_flight) = Some (sweeps_request 1 1000)
  ∧ r_owner (sweeps_request 1 1000) = r_owner (sweeps_request 0 0)
  ∧ sessions two_in_flight !! 0 = Some (sweeps_session true)
  ∧ mounted (sweeps_session true) = true
  ∧ snapshot 0 (run (Err := unit) two_in_flight [Resolve 1 [2]; Resolve 0 [1]; Flush 0])
    = Some [1].
Proof.
  split_and!; [vm_compute; reflexivity|lia|vm_compute; reflexivity..|].
  by destruct (last_completion_wins (Err := unit) 0 1
                 (sweeps_request 0 0) (sweeps_request 1 1000) (sweeps_session true)
                 [1] [2] two_in_flight
                 eq_refl ltac:(lia) eq_refl eq_refl eq_refl eq_refl eq_refl)
    as (_ & Hsnap & _).
Defined.

Lemma snapshot_empty_before_first_result_witness :
  Forall (λ ev, is_resolve ev = false)
    [Mount (Item := nat) sweeps; Advance 1500; Reject 0 tt; Flush 0]
  ∧ useClientDataState sweeps [0]
      (run init [Mount (Item := nat) sweeps; Advance 1500; Reject 0 tt; Flush 0])
    = Some [].
Proof.
  split; [by repeat constructor|].
  destruct (snapshot_empty_before_first_result
              [Mount (Item := nat) sweeps; Advance 1500; Reject 0 tt; Flush 0])
    as [Hread _]; [by repeat constructor|].
  apply Hread.
Defined.


(** * The base URL *)

Lemma BASE_unfold framed referrer href :
  BASE framed referrer href
  = replace view_undefined []
      (strip_trailing_slash (if framed then referrer else href)).
Proof. by destruct framed. Qed.

Lemma strip_trailing_slash_snoc (s : JSString) :
  strip_trailing_slash (s ++ ["/"%char]) = s.
Proof.
  unfold strip_trailing_slash. rewrite last_snoc, decide_True by done.
  rewrite length_app, Nat.add_sub. apply take_app_length.
Qed.

Lemma strip_trailing_slash_keep (s : JSString) :
  last s ≠ Some "/"%char → strip_trailing_slash s = s.
Proof. intros Hl. unfold strip_trailing_slash. by rewrite decide_False. Qed.

Lemma strip_trailing_slash_app (l1 l2 : JSString) :
  l2 ≠ [] → strip_trailing_slash (l1 ++ l2) = l1 ++ strip_trailing_slash l2.
Proof.
  intros Hne. unfold strip_trailing_slash. rewrite last_app.
  destruct (last l2) as [c|] eqn:Hl; [|by apply last_None in Hl].
  destruct (decide (Some c = Some "/"%char)) as [_|_]; [|done].
  assert (0 < length l2) by (destruct l2; [done|cbn; lia]).
  rewrite length_app, take_app_ge by lia. f_equal. f_equal. lia.
Qed.

Lemma strip_trailing_slash_cases (s : JSString) :
  strip_trailing_slash s = s ∨ s = strip_trailing_slash s ++ ["/"%char].
Proof.
  unfold strip_trailing_slash.
  destruct (decide (last s = Some "/"%char)) as [Hl|]; [right|by left].
  apply last_Some in Hl as [s' ->].
  by rewrite length_app, Nat.add_sub, take_app_length.
Qed.

Lemma indexOf_unfold (pattern s : JSString) :
  indexOf pattern s
  = if decide (pattern `prefix_of` s) then Some 0
    else match s with
         | [] => None
         | _ :: s' => S <$> indexOf pattern s'
         end.
Proof. by destruct s. Qed.

(** What [indexOf] returns is the position of an occurrence. *)
Lemma indexOf_Some (pattern s : JSString) i :
  indexOf pattern s = Some i →
  s = take i s ++ pattern ++ drop (i + length pattern) s.
Proof.
  revert i. induction s as [|c s IH]; intros i; rewrite indexOf_unfold.
  - destruct (decide (pattern `prefix_of` [])) as [Hp|]; [|done].
    intros [= <-]. apply prefix_nil_inv in Hp as ->. done.
  - destruct (decide (pattern `prefix_of` c :: s)) as [[z Hz]|_].
    + intros [= <-]. rewrite Hz. rewrite take_0. cbn [app Nat.add].
      by rewrite drop_app_length.
    + destruct (indexOf pattern s) as [j|] eqn:Hj; [|done].
      intros [= <-]. cbn. f_equal. by apply IH.
Qed.

Lemma prefix_app_short {A} (l1 l2 l3 : list A) :
  l1 `prefix_of` l2 ++ l3 → length l1 ≤ length l2 → l1 `prefix_of` l2.
Proof.
  intros [z Hz] Hlen.
  assert (l1 = take (length l1) l2) as ->; [|apply prefix_take].
  rewrite <- (take_app_le l2 l3) by done. by rewrite Hz, take_app_length.
Qed.

(** An occurrence of an unbordered pattern cannot start inside [u] and end
    inside the pattern that follows [u]. *)
Lemma no_overlap (pattern u rest : JSString) :
  unbordered pattern → u ≠ [] → ¬ pattern `prefix_of` u →
  ¬ pattern `prefix_of` u ++ pattern ++ rest.
Proof.
  intros Hub Hu Hnp Hp.
  destruct (decide (length pattern ≤ length u)) as [Hle|Hgt].
  { apply Hnp. by apply (prefix_app_short _ _ (pattern ++ rest)). }
  assert (0 < length u) by (destruct u; [done|cbn; lia]).
  apply (Hub (length u)); [lia|].
  destruct Hp as [z Hz].
  apply (prefix_app_short _ _ rest); [|rewrite length_drop; lia].
  exists z. rewrite <- (drop_app_length u (pattern ++ rest)), Hz.
  apply drop_app_le. lia.
Qed.

Lemma indexOf_unbordered (pattern root rest : JSString) :
  unbordered pattern → indexOf pattern root = None →
  indexOf pattern (root ++ pattern ++ rest) = Some (length root).
Proof.
  intros Hub. induction root as [|c root IH]; intros Hnone.
  - cbn [app length]. rewrite indexOf_unfold, decide_True; [done|].
    by apply prefix_app_r.
  - rewrite indexOf_unfold in Hnone.
    destruct (decide (pattern `prefix_of` c :: root)) as [|Hnp]; [done|].
    destruct (indexOf pattern root) as [j|] eqn:Hj; [done|].
    rewrite indexOf_unfold, decide_False by (by apply no_overlap).
    cbn [app]. by rewrite IH.
Qed.

Lemma view_undefined_unbordered : unbordered view_undefined.
Proof.
  assert (Hall : Forall (λ k, ¬ drop k view_undefined `prefix_of` view_undefined)
                   (seq 1 14)).
  { apply (bool_decide_unpack _). by vm_compute. }
  intros k Hk. apply (proj1 (Forall_forall _ _) Hall).
  apply elem_of_seq. change (length view_undefined) with 15 in Hk. lia.
Qed.

Lemma view_undefined_ends_in_d (root : JSString) :
  strip_trailing_slash (root ++ view_undefined) = root ++ view_undefined.
Proof.
  rewrite strip_trailing_slash_app by done. f_equal.
Qed.

(** X1. A page URL without the path [/view/undefined]: [BASE] is the URL
    less one trailing slash. If the URL is [s] followed by a slash, [BASE] is
    [s] (also when [s] itself ends in a slash: one slash only is taken off);
    if it is [s] and [s] does not end in a slash, [BASE] is [s]. The URL is
    [document.referrer] in a frame and [document.location.href] otherwise. *)
Theorem BASE_strips_one_slash (framed : bool) (referrer href s : JSString) :
  indexOf view_undefined s = None →
  ((if framed then referrer else href) = s ++ ["/"%char] →
     BASE framed referrer href = s)
  ∧ ((if framed then referrer else href) = s → last s ≠ Some "/"%char →
     BASE framed referrer href = s).
Proof.
  intros Hnone. rewrite BASE_unfold. split.
  - intros ->. rewrite strip_trailing_slash_snoc. unfold replace. by rewrite Hnone.
  - intros -> Hl. rewrite strip_trailing_slash_keep by done.
    unfold replace. by rewrite Hnone.
Qed.

(** X2. A page URL in which [/view/undefined] first occurs after [root]:
    [BASE] is the URL without that occurrence and without one trailing
    slash of what follows it. Whatever follows is kept, later occurrences of
    the path included, and [root] is kept as it is, a slash at its end
    included. *)
Theorem BASE_removes_view_path (framed : bool) (referrer href root rest : JSString) :
  indexOf view_undefined root = None →
  (if framed then referrer else href) = root ++ view_undefined ++ rest →
  BASE framed referrer href = root ++ strip_trailing_slash rest.
Proof.
  intros Hnone Hurl. rewrite BASE_unfold, Hurl.
  assert (Hstrip : strip_trailing_slash (root ++ view_undefined ++ rest)
                   = root ++ view_undefined ++ strip_trailing_slash rest).
  { destruct rest as [|c rest].
    - rewrite app_nil_r. apply view_undefined_ends_in_d.
    - by rewrite !strip_trailing_slash_app. }
  rewrite Hstrip. unfold replace.
  rewrite (indexOf_unbordered _ _ _ view_undefined_unbordered Hnone).
  rewrite take_app_length, drop_app_add, drop_app_length. done.
Qed.

Lemma strip_then_replace_only_deletes (url : JSString) :
  replace view_undefined [] (strip_trailing_slash url) `sublist_of` url
  ∧ length url - 16 ≤ length (replace view_undefined [] (strip_trailing_slash url))
  ∧ length (replace view_undefined [] (strip_trailing_slash url)) ≤ length url.
Proof.
  assert (Hstrip : strip_trailing_slash url `sublist_of` url
                   ∧ length url - 1 ≤ length (strip_trailing_slash url)).
  { destruct (strip_trailing_slash_cases url) as [->|Heq]; [split; [done|lia]|].
    split; [rewrite Heq at 2; by apply sublist_inserts_r|].
    rewrite Heq at 1. rewrite length_app. cbn. lia. }
  destruct Hstrip as [Hsub Hlen].
  assert (Hrep : replace view_undefined [] (strip_trailing_slash url)
                   `sublist_of` strip_trailing_slash url
                 ∧ length (strip_trailing_slash url) - 15
                   ≤ length (replace view_undefined [] (strip_trailing_slash url))).
  { unfold replace.
    destruct (indexOf view_undefined (strip_trailing_slash url)) as [i|] eqn:Hi;
      [|split; [done|lia]].
    apply indexOf_Some in Hi. cbn [app]. split.
    - rewrite Hi at 3. apply sublist_app; [done|]. by apply sublist_inserts_l.
    - rewrite Hi at 1. rewrite !length_app.
      change (length view_undefined) with 15. lia. }
  destruct Hrep as [Hsub' Hlen'].
  assert (Hall : replace view_undefined [] (strip_trailing_slash url) `sublist_of` url)
    by (by etrans).
  split_and!; [done|lia|by apply sublist_length].
Qed.

(** X3. [BASE] only deletes: it is the page URL with some characters left
    out, at most 16 of them (the 15 of [/view/undefined] and one slash). *)
Theorem BASE_only_deletes (framed : bool) (referrer href : JSString) :
  BASE framed referrer href `sublist_of` (if framed then referrer else href)
  ∧ length (if framed then referrer else href) - 16
    ≤ length (BASE framed referrer href)
  ∧ length (BASE framed referrer href)
    ≤ length (if framed then referrer else href).
Proof.
  rewrite BASE_unfold. destruct framed; apply strip_then_replace_only_deletes.
Qed.

Lemma BASE_strips_one_slash_witness :
  indexOf view_undefined (str "http://127.0.0.1:7501/") = None
  ∧ BASE false [] (str "http://127.0.0.1:7501//") = str "http://127.0.0.1:7501/"
  ∧ indexOf view_undefined (str "http://127.0.0.1:7501") = None
  ∧ last (str "http://127.0.0.1:7501") ≠ Some "/"%char
  ∧ BASE true (str "http://127.0.0.1:7501") [] = str "http://127.0.0.1:7501".
Proof.
  split_and!; [by vm_compute| |by vm_compute|by vm_compute|].
  - destruct (BASE_strips_one_slash false [] (str "http://127.0.0.1:7501//")
                (str "http://127.0.0.1:7501/")) as [Hslash _]; [by vm_compute|].
    by apply Hslash.
  - destruct (BASE_strips_one_slash true (str "http://127.0.0.1:7501") []
                (str "http://127.0.0.1:7501")) as [_ Hkeep]; [by vm_compute|].
    apply Hkeep; by vm_compute.
Defined.

Lemma BASE_removes_view_path_witness :
  indexOf view_undefined (str "https://cloud.example/apps/7/") = None
  ∧ BASE true (str "https://cloud.example/apps/7//view/undefined/view/undefined/") []
    = str "https://cloud.example/apps/7//view/undefined".
Proof.
  split; [by vm_compute|].
  by apply (BASE_removes_view_path true _ []
              (str "https://cloud.example/apps/7/") (str "/view/undefined/")
              ltac:(by vm_compute)).
Defined.

(** * The page as a whole *)

Section MoreProperties.
Context {Item Err : Type}.

#[local] Abbreviation World := (World Item).
#[local] Abbreviation Event := (Event Item Err).
#[local] Abbreviation step := (@step Item Err).
#[local] Abbreviation run := (@run Item Err).
#[local] Abbreviation init := (@init Item).

Implicit Types (w : World) (ev : Event) (evs : list Event)
  (sid : nat) (K : Endpoint) (t : Timer) (r : Request) (s : Session Item).

Lemma run_snoc w evs ev : run w (evs ++ [ev]) = step (run w evs) ev.
Proof. apply foldl_snoc. Qed.

(** ** Exceptions and notifications *)

Lemma advance_quiet ms w :
  registry w = module_registry →
  uncaught (advance ms w) = uncaught w
  ∧ notifications (advance ms w) = notifications w.
Proof.
  intros Hreg. unfold advance. induction ms as [|ms [IH1 IH2]]; [done|].
  rewrite Nat.iter_succ.
  destruct (tick_spec (Nat.iter ms tick w))
    as (_ & _ & _ & _ & _ & _ & _ & _ & _ & Hno & Hun).
  { destruct (advance_keeps ms w) as [Hrg _]. unfold advance in Hrg. congruence. }
  split; congruence.
Qed.

Lemma step_quiet w ev :
  registry w = module_registry →
  uncaught (step w ev) = uncaught w
  ∧ (notifications (step w ev) = notifications w
     ∨ is_reject ev = true
       ∧ notifications (step w ev) = notifications w ++ [fetch_error_snack]).
Proof.
  intros Hreg. destruct ev as [K|sid K|sid|ms|p data|p e|sid].
  - change (step w (Mount K)) with (mount K w).
    destruct (mount_spec K w Hreg) as [cmd ->]. auto.
  - auto.
  - cbn. unfold unmount. destruct (sessions w !! sid) as [s|]; [|auto].
    destruct (mounted s); [|auto]. destruct (interval s); auto.
  - destruct (advance_quiet ms w Hreg). auto.
  - cbn. unfold settle_promise. destruct (find_request p (inflight w)); auto.
  - cbn. unfold settle_promise. destruct (find_request p (inflight w)); auto.
  - auto.
Qed.

(** X4. On a page with the module's tables nothing is ever thrown to the
    event loop, whatever happens: no [TypeError] from the endpoint lookup
    and no unhandled rejection. The only notifications added are copies of
    the fetch-error snackbar, at most one for each rejection. *)
Theorem never_throws_only_notifies evs w :
  registry w = module_registry →
  uncaught (run w evs) = uncaught w
  ∧ ∃ n, n ≤ length (filter (λ ev, is_reject ev = true) evs)
         ∧ notifications (run w evs)
           = notifications w ++ replicate n fetch_error_snack.
Proof.
  revert w. induction evs as [|ev evs IH]; intros w Hreg.
  - split; [done|]. exists 0. split; [done|]. by rewrite app_nil_r.
  - rewrite run_cons.
    destruct (step_quiet w ev Hreg) as [Hun Hno].
    destruct (IH (step w ev)) as (Hun' & n & Hn & Hno').
    { by rewrite registry_step. }
    split; [congruence|]. rewrite Hno'.
    destruct Hno as [->|[Hrej ->]].
    + exists n. split; [|done].
      etrans; [exact Hn|]. destruct (is_reject ev) eqn:Hrej.
      * rewrite filter_cons_True by done. cbn. lia.
      * by rewrite filter_cons_False by (by rewrite Hrej).
    + exists (S n). rewrite filter_cons_True by done. cbn.
      split; [lia|]. by rewrite <- app_assoc.
Qed.

(** ** The function each request called *)

Lemma log_matches_fire w t : log_matches w → log_matches (fire w t).
Proof.
  intros Hlm. unfold fire, post.
  destruct (get (t_endpoint t) (clientEndpoints (registry w))) as [cmd|] eqn:Hget;
    [|done].
  intros r [Hr| ->%list_elem_of_singleton]%elem_of_app; [by apply Hlm|done].
Qed.

Lemma log_matches_fire_all ts w :
  log_matches w → log_matches (foldl fire w ts).
Proof.
  revert w. induction ts as [|t ts IH]; intros w Hlm; [done|].
  cbn [foldl]. by apply IH, log_matches_fire.
Qed.

Lemma log_matches_step w ev : log_matches w → log_matches (step w ev).
Proof.
  intros Hlm. destruct ev as [K|sid K|sid|ms|p data|p e|sid]; cbn.
  - unfold mount, post; cbn.
    destruct (get K (clientEndpoints (registry w))) as [cmd|] eqn:Hget; [|done].
    intros r [Hr| ->%list_elem_of_singleton]%elem_of_app; [by apply Hlm|done].
  - done.
  - unfold unmount. destruct (sessions w !! sid) as [s|]; [|done].
    destruct (mounted s); [|done]. by destruct (interval s).
  - unfold advance. induction ms as [|ms IH]; [done|].
    rewrite Nat.iter_succ. unfold tick.
    by apply (log_matches_fire_all _ (set_clock _ (Nat.iter ms tick w))).
  - unfold settle_promise. by destruct (find_request p (inflight w)).
  - unfold settle_promise. by destruct (find_request p (inflight w)).
  - done.
Qed.

(** X5. Every request ever logged on a page reached from the initial one
    called the function the table has for its endpoint: sweeps and notebooks
    requests go to the [appClientCommand] service, tensorboards requests to
    [appCommand], each with its own operation. *)
Theorem requests_call_their_endpoint evs r :
  r ∈ fetch_log (run init evs) →
  get (r_endpoint r) (clientEndpoints (@module_registry Item)) = Some (r_command r)
  ∧ (service (r_command r) = appCommand ↔ r_endpoint r = tensorboards)
  ∧ (∀ r', r' ∈ fetch_log (run init evs) →
           r_endpoint r' = r_endpoint r ↔ r_command r' = r_command r).
Proof.
  assert (Hlm : log_matches (run init evs)).
  { induction evs as [|ev evs IH] using rev_ind.
    - intros r' Hr'. by apply not_elem_of_nil in Hr'.
    - rewrite run_snoc. by apply log_matches_step. }
  intros Hr. pose proof (Hlm r Hr) as Hget. rewrite registry_run in Hget.
  split; [exact Hget|]. split.
  - destruct (r_endpoint r); cbn in Hget; injection Hget as <-; cbn; split; done.
  - intros r' Hr'. pose proof (Hlm r' Hr') as Hget'. rewrite registry_run in Hget'.
    destruct (r_endpoint r), (r_endpoint r'); cbn in Hget, Hget';
      injection Hget as <-; injection Hget' as <-; split; done.
Qed.

(** ** Timers and components *)

Lemma NoDup_fmap_eq {A B} (f : A → B) (l : list A) x y :
  NoDup (f <$> l) → x ∈ l → y ∈ l → f x = f y → x = y.
Proof.
  intros Hnd [i Hi]%list_elem_of_lookup [j Hj]%list_elem_of_lookup Hf.
  assert (i = j) as ->; [|congruence].
  apply (NoDup_lookup (f <$> l) i j (f x)); [done|..];
    rewrite list_lookup_fmap; [by rewrite Hi|by rewrite Hj, Hf].
Qed.

Lemma tidy_init : tidy init.
Proof.
  split; cbn.
  - apply wf_init.
  - constructor.
  - intros sid s Hs. by rewrite lookup_nil in Hs.
  - intros t Ht. by apply not_elem_of_nil in Ht.
Qed.

Lemma tidy_alter (f : Session Item → Session Item) sid w :
  (∀ s, interval (f s) = interval s ∧ mounted (f s) = mounted s) →
  tidy w → tidy (set_sessions (alter f sid (sessions w)) w).
Proof.
  intros Hf [Hw Hids Hlive Hper]. split; cbn; [by apply wf_alter|done| |done].
  intros sid' s' Hs' Hm'.
  apply lookup_alter_inv in Hs' as (s0 & Hs0 & [->|[_ ->]]).
  - eauto.
  - destruct (Hf s0) as [_ Hm0]. rewrite Hm0 in Hm'. eauto.
Qed.

Lemma tidy_render sid w : tidy w → tidy (render sid w).
Proof. apply tidy_alter. intros s. destruct (mounted s) eqn:Hm; cbn; auto. Qed.

Lemma tidy_mount K w : tidy w → tidy (mount K w).
Proof.
  intros [Hw Hids Hlive Hper]. split; [by apply wf_mount|..];
    destruct (mount_spec K w (wf_registry w Hw)) as [cmd ->]; cbn.
  - rewrite fmap_app. apply NoDup_app. split_and!; [done| |apply NoDup_singleton].
    intros i (t & -> & Ht)%list_elem_of_fmap Heq%list_elem_of_singleton.
    destruct (wf_timer_owner w Hw t Ht) as (s & Hs & Hi & _).
    pose proof (wf_interval_lt w Hw _ _ _ Hs Hi). cbn in Heq. lia.
  - intros sid s Hs Hm.
    apply lookup_snoc_Some in Hs as [[_ Hs] | [<- <-]].
    + destruct (Hlive sid s Hs Hm) as (t & Ht & Hown).
      exists t. split; [|done]. apply elem_of_app. by left.
    + eexists. split; [apply elem_of_app; right; by apply list_elem_of_singleton|done].
  - intros t [Ht| ->%list_elem_of_singleton]%elem_of_app; [by apply Hper|done].
Qed.

Lemma tidy_unmount sid w : tidy w → tidy (unmount sid w).
Proof.
  intros Hti. pose proof Hti as [Hw Hids Hlive Hper].
  split; [by apply wf_unmount|..]; unfold unmount;
    destruct (sessions w !! sid) as [s|] eqn:Hs; try done;
    destruct (mounted s) eqn:Hm; try done.
  - destruct (interval s); cbn; [|done].
    eapply sublist_NoDup; [exact Hids|]. apply fmap_sublist, sublist_filter.
  - assert (Hother : ∀ sid' s', alter (set_mounted false) sid (sessions w) !! sid'
                                = Some s' → mounted s' = true →
                                sid' ≠ sid ∧ sessions w !! sid' = Some s').
    { intros sid' s' Hs' Hm'. pose proof Hs' as Hs''.
      apply lookup_alter_inv in Hs' as (s0 & Hs0 & [->|[-> ->]]); [|done].
      split; [|done]. intros ->. rewrite list_lookup_alter_eq, Hs in Hs''.
      cbn in Hs''. by injection Hs'' as <-. }
    destruct (interval s) as [id|] eqn:Hi; cbn; intros sid' s' Hs' Hm';
      destruct (Hother sid' s' Hs' Hm') as [Hne Hs0];
      destruct (Hlive sid' s' Hs0 Hm') as (t & Ht & Hown); exists t;
      (split; [|done]); [|done].
    apply list_elem_of_filter. split; [|done]. intros Htid.
    destruct (Hlive sid s Hs Hm) as (t' & Ht' & Hown').
    destruct (wf_timer_owner w Hw t' Ht') as (s1 & Hs1 & Hi1 & _).
    rewrite Hown', Hs in Hs1. injection Hs1 as <-.
    assert (t = t'); [|congruence].
    apply (NoDup_fmap_eq tid (timers w)); [done..|]. congruence.
  - destruct (interval s); cbn; [|done].
    intros t [_ Ht]%list_elem_of_filter. by apply Hper.
Qed.

Lemma tidy_tick w : tidy w → tidy (tick w).
Proof.
  intros [Hw Hids Hlive Hper]. split; [by apply wf_tick|..];
    destruct (tick_spec w (wf_registry w Hw))
      as (_ & _ & _ & _ & Hts & _ & _ & Hss & _); rewrite Hts, ?Hss.
  - rewrite <- list_fmap_compose.
    rewrite (list_fmap_ext (tid ∘ reschedule (S (clock w))) tid (timers w)); [done|].
    intros i t _. cbn. by destruct (reschedule_same (S (clock w)) t) as (-> & _).
  - intros sid s Hs Hm. destruct (Hlive sid s Hs Hm) as (t & Ht & Hown).
    exists (reschedule (S (clock w)) t). split; [by apply list_elem_of_fmap_2|].
    by destruct (reschedule_same (S (clock w)) t) as (_ & -> & _).
  - intros t' (t & -> & Ht)%list_elem_of_fmap.
    destruct (reschedule_same (S (clock w)) t) as (_ & _ & _ & ->). by apply Hper.
Qed.

Lemma tidy_step w ev : tidy w → tidy (step w ev).
Proof.
  intros Hti. destruct ev as [K|sid K|sid|ms|p data|p e|sid]; cbn.
  - by apply tidy_mount.
  - apply tidy_render. revert Hti. apply tidy_alter.
    intros s. destruct (mounted s) eqn:Hm; cbn; auto.
  - by apply tidy_unmount.
  - unfold advance. induction ms as [|ms IH]; [done|].
    rewrite Nat.iter_succ. by apply tidy_tick.
  - unfold settle_promise. destruct (find_request p (inflight w)); [|done].
    cbn. apply (tidy_alter _ _ (set_inflight _ w)); [done|].
    destruct Hti as [[] ? ? ?]. by repeat split.
  - unfold settle_promise. destruct (find_request p (inflight w)); [|done].
    cbn. destruct Hti as [[] ? ? ?]. by repeat split.
  - by apply tidy_render.
Qed.

Lemma tidy_run evs w : tidy w → tidy (run w evs).
Proof.
  revert w. induction evs as [|ev evs IH]; intros w Hti; [done|].
  rewrite run_cons. by apply IH, tidy_step.
Qed.

(** X6. On every page reached from the initial one, a mounted provider owns
    exactly one live interval timer and an unmounted one owns none: no timer
    outlives its component, and none is lost while the component lives.
    Every live timer has the period 1000 and belongs to a mounted
    component. *)
Theorem one_timer_per_mounted_provider evs sid s :
  sessions (run init evs) !! sid = Some s →
  length (timers_of sid (run init evs)) = (if mounted s then 1 else 0)
  ∧ (∀ t, t ∈ timers_of sid (run init evs) → interval s = Some (tid t))
  ∧ ∀ t, t ∈ timers (run init evs) →
         period t = 1000
         ∧ mounted <$> sessions (run init evs) !! t_owner t = Some true.
Proof.
  intros Hs. destruct (tidy_run evs init tidy_init) as [Hw Hids Hlive Hper].
  assert (Hmine : ∀ t, t ∈ timers_of sid (run init evs) →
                       t ∈ timers (run init evs) ∧ interval s = Some (tid t)
                       ∧ mounted s = true).
  { intros t [Hown Ht]%list_elem_of_filter.
    destruct (wf_timer_owner _ Hw t Ht) as (s' & Hs' & Hi & Hm).
    rewrite Hown, Hs in Hs'. by injection Hs' as <-. }
  split_and!.
  - assert (Hle : length (timers_of sid (run init evs)) ≤ 1).
    { destruct (timers_of sid (run init evs)) as [|t1 [|t2 l]] eqn:Hl; cbn; [lia..|].
      exfalso.
      destruct (Hmine t1) as (Ht1 & Hi1 & _); [rewrite ?Hl; left|].
      destruct (Hmine t2) as (Ht2 & Hi2 & _); [rewrite ?Hl; right; left|].
      assert (Hnd : NoDup (tid <$> timers_of sid (run init evs))).
      { eapply sublist_NoDup; [exact Hids|]. apply fmap_sublist, sublist_filter. }
      rewrite ?Hl in Hnd. cbn in Hnd. apply NoDup_cons in Hnd as [Hnot _].
      apply Hnot. assert (tid t1 = tid t2) as -> by congruence. left. }
    destruct (mounted s) eqn:Hm.
    + destruct (Hlive sid s Hs Hm) as (t & Ht & Hown).
      assert (Hin : t ∈ timers_of sid (run init evs)) by (by apply list_elem_of_filter).
      destruct (timers_of sid (run init evs)); [by apply not_elem_of_nil in Hin|].
      cbn in *. lia.
    + destruct (timers_of sid (run init evs)) as [|t l] eqn:Hl; [done|].
      destruct (Hmine t) as (_ & _ & Hm'); [rewrite ?Hl; left|congruence].
  - intros t Ht. by destruct (Hmine t Ht) as (_ & Hi & _).
  - intros t Ht. split; [by apply Hper|].
    destruct (wf_timer_owner _ Hw t Ht) as (s' & -> & _ & Hm). cbn. by rewrite Hm.
Qed.

(** ** Readers and providers *)

Lemma context_ids_distinct K K' (c c' : Context Item) :
  get K (clientDataContexts (@module_registry Item)) = Some c →
  get K' (clientDataContexts (@module_registry Item)) = Some c' →
  ctx_id c = ctx_id c' → K = K'.
Proof. destruct K, K'; cbn; intros [= <-] [= <-]; done. Qed.

Lemma read_through_other_provider K sid s anc w :
  registry w = module_registry →
  sessions w !! sid = Some s → props_endpoint s ≠ K →
  useClientDataState K (sid :: anc) w = useClientDataState K anc w.
Proof.
  intros Hreg Hs Hne. unfold useClientDataState. rewrite Hreg.
  destruct (endpoint_context_defined (Item := Item) K) as (ctx & Hctx & _). rewrite Hctx.
  f_equal. cbn [useContext]. rewrite Hs, Hreg.
  destruct (endpoint_context_defined (Item := Item) (props_endpoint s)) as (c & Hc & _).
  rewrite Hc, bool_decide_eq_false_2, andb_false_r; [done|].
  intros Hid. apply Hne. by apply (context_ids_distinct _ _ c ctx).
Qed.

(** X7. How a reader finds its data, on a page with the module's tables.
    Outside every provider it reads the empty default. Right below a mounted
    provider rendered with its endpoint it reads that provider's state,
    whatever providers enclose that one. A provider rendered with another
    endpoint is transparent: the reader reads what it would read without
    it. *)
Theorem reader_scoping w :
  registry w = module_registry →
  (∀ K, useClientDataState K [] w = Some [])
  ∧ (∀ sid s anc, sessions w !! sid = Some s → mounted s = true →
       useClientDataState (props_endpoint s) (sid :: anc) w = Some (state s))
  ∧ (∀ K sid s anc, sessions w !! sid = Some s → props_endpoint s ≠ K →
       useClientDataState K (sid :: anc) w = useClientDataState K anc w).
Proof.
  intros Hreg. split_and!.
  - intros K. unfold useClientDataState. rewrite Hreg.
    by destruct (endpoint_context_defined (Item := Item) K) as (ctx & -> & <-).
  - intros sid s anc Hs Hm. by apply read_below_provider.
  - intros K sid s anc Hs Hne. by apply (read_through_other_provider K sid s).
Qed.

Lemma fetch_log_quiet w ev :
  match ev with Mount _ | Advance _ => False | _ => True end →
  fetch_log (step w ev) = fetch_log w.
Proof.
  destruct ev as [K|sid K|sid|ms|p data|p e|sid]; intros Hev;
    [done| | |done| | |].
  - by destruct (same_polling_rerender sid K w) as (_ & _ & _ & _ & Hlog & _).
  - by destruct (unmount_spec sid w) as (_ & _ & _ & Hlog & _).
  - by destruct (same_polling_settle (Err := Err) p (Fulfilled data) w) as (_ & _ & _ & _ & Hlog & _).
  - by destruct (same_polling_settle p (Rejected e) w) as (_ & _ & _ & _ & Hlog & _).
  - by destruct (same_polling_render sid w) as (_ & _ & _ & _ & Hlog & _).
Qed.



(** X9. A failure leaves the last result on display. When, of two requests
    in flight for one mounted component, one resolves with [S1] and the
    other is rejected, the snapshot after the renders is [S1] in either
    order, and exactly one notification has been added. *)
Theorem failure_keeps_last_result p1 p2 r1 r2 s (S1 : list Item) (E : Err) w :
  p1 ≠ p2 →
  find_request p1 (inflight w) = Some r1 →
  find_request p2 (inflight w) = Some r2 →
  r_owner r2 = r_owner r1 →
  sessions w !! r_owner r1 = Some s → mounted s = true →
  snapshot (r_owner r1)
    (run w [Resolve p1 S1; Flush (r_owner r1); Reject p2 E; Flush (r_owner r1)])
    = Some S1
  ∧ notifications
      (run w [Resolve p1 S1; Flush (r_owner r1); Reject p2 E; Flush (r_owner r1)])
    = notifications w ++ [fetch_error_snack]
  ∧ snapshot (r_owner r1)
      (run w [Reject p2 E; Resolve p1 S1; Flush (r_owner r1)]) = Some S1
  ∧ notifications (run w [Reject p2 E; Resolve p1 S1; Flush (r_owner r1)])
    = notifications w ++ [fetch_error_snack].
Proof.
  intros Hne Hr1 Hr2 Hown Hs Hm.
  assert (Hkeep : ∀ w' : World, inflight w' = inflight w →
            find_request p1 (inflight (step w' (Reject p2 E))) = Some r1
            ∧ sessions (step w' (Reject p2 E)) = sessions w'
            ∧ notifications (step w' (Reject p2 E))
              = notifications w' ++ [fetch_error_snack]).
  { intros w' Hfl. rewrite (reject_spec p2 r2 E w') by (rewrite Hfl; exact Hr2). cbn.
    rewrite Hfl, find_request_filter_ne by done. done. }
  assert (Hquiet : ∀ (w' : World) data,
            notifications (run w' [Resolve p1 data; Flush (r_owner r1)])
            = notifications w').
  { intros w' data. rewrite !run_cons. cbn. unfold settle_promise.
    by destruct (find_request p1 (inflight w')). }
  split_and!.
  - pose proof (resolve_flush_snapshot (Err := Err) p1 r1 s S1 w Hr1 Hs Hm) as Hs2.
    change (run w [Resolve p1 S1; Flush (r_owner r1); Reject p2 E; Flush (r_owner r1)])
      with (run (run w [Resolve p1 S1; Flush (r_owner r1)])
              [Reject p2 E; Flush (r_owner r1)]).
    set (w2 := run w [Resolve p1 S1; Flush (r_owner r1)]) in *. clearbody w2.
    change (run w2 [Reject p2 E; Flush (r_owner r1)])
      with (step (step w2 (Reject p2 E)) (Flush (r_owner r1))).
    unfold snapshot.
    assert (Hss : sessions (step w2 (Reject p2 E)) = sessions w2).
    { change (step w2 (Reject p2 E)) with (settle_promise p2 (Rejected E) w2).
      unfold settle_promise. by destruct (find_request p2 (inflight w2)). }
    rewrite <- Hss in Hs2.
    by destruct (flush_spec (Err := Err) (r_owner r1) _ _ Hs2 eq_refl) as (-> & _).
  - change (run w [Resolve p1 S1; Flush (r_owner r1); Reject p2 E; Flush (r_owner r1)])
      with (step (step (run w [Resolve p1 S1; Flush (r_owner r1)]) (Reject p2 E))
              (Flush (r_owner r1))).
    change (notifications (step ?w' (Flush ?i))) with (notifications w').
    rewrite <- (Hquiet w S1).
    set (w2 := run w [Resolve p1 S1; Flush (r_owner r1)]).
    assert (Hr2' : find_request p2 (inflight w2) = Some r2).
    { unfold w2.
      destruct (resolve_spec (Err := Err) p1 r1 S1 s w Hr1 Hs) as (_ & Hfl & _).
      change (inflight (run w [Resolve p1 S1; Flush (r_owner r1)]))
        with (inflight (step w (Resolve p1 S1))).
      rewrite Hfl, find_request_filter_ne; [done|congruence]. }
    by rewrite (reject_spec p2 r2 E w2 Hr2').
  - destruct (Hkeep w eq_refl) as (Hr1' & Hss & _). rewrite run_cons.
    rewrite <- Hss in Hs. unfold snapshot.
    by rewrite (resolve_flush_snapshot (Err := Err) p1 r1 s S1 _ Hr1' Hs Hm).
  - destruct (Hkeep w eq_refl) as (_ & _ & Hno). rewrite run_cons.
    by rewrite Hquiet, Hno.
Qed.

(** ** Whose data a component shows *)

Lemma pids_fresh_ext w w' :
  fetch_log w' = fetch_log w → next_promise w' = next_promise w →
  pids_fresh w → pids_fresh w'.
Proof. unfold pids_fresh. by intros -> ->. Qed.

Lemma pids_fresh_call sid K cmd w :
  pids_fresh w → pids_fresh (call_endpoint sid K cmd w).
Proof.
  intros [Hnd Hlt]. split; cbn.
  - rewrite fmap_app. apply NoDup_app. split_and!; [done| |apply NoDup_singleton].
    intros i (r & -> & Hr)%list_elem_of_fmap Heq%list_elem_of_singleton.
    specialize (Hlt r Hr). cbn in Heq. lia.
  - intros r [Hr| ->%list_elem_of_singleton]%elem_of_app; [|cbn; lia].
    specialize (Hlt r Hr). lia.
Qed.

Lemma pids_fresh_fire w t : pids_fresh w → pids_fresh (fire w t).
Proof.
  intros Hp. unfold fire, post.
  destruct (get (t_endpoint t) (clientEndpoints (registry w))); [|done].
  by apply pids_fresh_call.
Qed.

Lemma pids_fresh_fire_all ts w : pids_fresh w → pids_fresh (foldl fire w ts).
Proof.
  revert w. induction ts as [|t ts IH]; intros w Hp; [done|].
  cbn [foldl]. by apply IH, pids_fresh_fire.
Qed.

Lemma pids_fresh_step w ev : pids_fresh w → pids_fresh (step w ev).
Proof.
  intros Hp. destruct ev as [K|sid K|sid|ms|p data|p e|sid]; cbn.
  - unfold mount, post; cbn.
    destruct (get K (clientEndpoints (registry w))) as [cmd|]; [|done].
    apply (pids_fresh_call (length (sessions w)) K cmd) in Hp.
    revert Hp. by apply pids_fresh_ext.
  - done.
  - unfold unmount. destruct (sessions w !! sid) as [s|]; [|done].
    destruct (mounted s); [|done]. by destruct (interval s).
  - unfold advance. induction ms as [|ms IH]; [done|].
    rewrite Nat.iter_succ. unfold tick.
    by apply (pids_fresh_fire_all _ (set_clock _ (Nat.iter ms tick w))).
  - unfold settle_promise. by destruct (find_request p (inflight w)).
  - unfold settle_promise. by destruct (find_request p (inflight w)).
  - done.
Qed.

Lemma find_request_Some p (rs : list Request) r :
  find_request p rs = Some r → r ∈ rs ∧ pid r = p.
Proof.
  induction rs as [|r' rs IH]; [done|]. cbn.
  destruct (decide (pid r' = p)) as [Hp|_].
  - intros [= <-]. split; [left|done].
  - intros [Hr Hpid]%IH. split; [by right|done].
Qed.

Lemma foldl_reducer_cases (st : list Item) q :
  foldl reducer st q = st ∧ q = [] ∨ foldl reducer st q ∈ q.
Proof.
  destruct q as [|d q _] using rev_ind; [by left|right].
  rewrite foldl_reducer_snoc. apply elem_of_app. right. left.
Qed.

Lemma shows_only_render (R : list Item → Prop) s :
  shows_only R s →
  shows_only R (if mounted s
                then Build_Session (props_endpoint s)
                       (foldl reducer (state s) (pending s)) [] true (interval s)
                else s).
Proof.
  intros [Hst Hq]. destruct (mounted s); [|done]. split; cbn.
  - destruct (foldl_reducer_cases (state s) (pending s)) as [[-> _]|Hin]; [done|].
    right. by apply Hq.
  - intros d Hd. by apply not_elem_of_nil in Hd.
Qed.

Lemma shows_only_alter (R : nat → list Item → Prop)
    (f : Session Item → Session Item) i (ss : list (Session Item)) :
  (∀ s, shows_only (R i) s → shows_only (R i) (f s)) →
  (∀ sid s, ss !! sid = Some s → shows_only (R sid) s) →
  ∀ sid s, alter f i ss !! sid = Some s → shows_only (R sid) s.
Proof.
  intros Hf Hall sid s Hs.
  apply lookup_alter_inv in Hs as (s0 & Hs0 & [->|[-> ->]]); eauto.
Qed.

Lemma fetch_log_grows w ev r :
  registry w = module_registry → r ∈ fetch_log w → r ∈ fetch_log (step w ev).
Proof.
  intros Hreg Hr. destruct ev as [K|sid K|sid|ms|p data|p e|sid];
    try (by rewrite fetch_log_quiet).
  - change (step w (Mount K)) with (mount K w).
    destruct (mount_spec K w Hreg) as [cmd ->]. cbn. apply elem_of_app. by left.
  - change (step w (Advance ms)) with (advance ms w).
    destruct (advance_inflight ms w Hreg) as (new & _ & ->). apply elem_of_app. by left.
Qed.

Lemma inflight_logged_step w ev :
  registry w = module_registry →
  (∀ r, r ∈ inflight w → r ∈ fetch_log w) →
  ∀ r, r ∈ inflight (step w ev) → r ∈ fetch_log (step w ev).
Proof.
  intros Hreg Hin r. destruct ev as [K|sid K|sid|ms|p data|p e|sid].
  - change (step w (Mount K)) with (mount K w).
    destruct (mount_spec K w Hreg) as [cmd ->]. cbn.
    rewrite !elem_of_app. intros [Hr|Hr]; auto.
  - rewrite fetch_log_quiet by done. apply Hin.
  - rewrite fetch_log_quiet by done. cbn. unfold unmount.
    destruct (sessions w !! sid) as [s|]; [|apply Hin].
    destruct (mounted s); [|apply Hin]. destruct (interval s); apply Hin.
  - change (step w (Advance ms)) with (advance ms w).
    destruct (advance_inflight ms w Hreg) as (new & -> & ->).
    rewrite !elem_of_app. intros [Hr|Hr]; auto.
  - rewrite fetch_log_quiet by done. cbn. unfold settle_promise.
    destruct (find_request p (inflight w)); [|apply Hin].
    cbn. intros [_ Hr]%list_elem_of_filter. by apply Hin.
  - rewrite fetch_log_quiet by done. cbn. unfold settle_promise.
    destruct (find_request p (inflight w)); [|apply Hin].
    cbn. intros [_ Hr]%list_elem_of_filter. by apply Hin.
  - rewrite fetch_log_quiet by done. apply Hin.
Qed.

Lemma own_data_step evs w ev :
  registry w = module_registry →
  own_data evs w → own_data (evs ++ [ev]) (step w ev).
Proof.
  intros Hreg [Hin Hown]. split; [by apply inflight_logged_step|].
  assert (Hmono : ∀ sid d, returned_to evs w sid d →
                           returned_to (evs ++ [ev]) (step w ev) sid d).
  { intros sid d (p & r & Hev & Hr & Hp & Ho). exists p, r. split_and!; [|
      by apply fetch_log_grows|done..]. apply elem_of_app. by left. }
  assert (Hown' : ∀ sid s, sessions w !! sid = Some s →
                           shows_only (returned_to (evs ++ [ev]) (step w ev) sid) s).
  { intros sid s Hs. destruct (Hown sid s Hs) as [Hst Hq]. split.
    - destruct Hst as [->|Hst]; [by left|right; by apply Hmono].
    - intros d Hd. by apply Hmono, Hq. }
  clear Hown Hmono.
  set (R := returned_to (evs ++ [ev]) (step w ev)) in *.
  destruct ev as [K|sid0 K|sid0|ms|p data|p e|sid0].
  - change (step w (Mount K)) with (mount K w).
    destruct (mount_spec K w Hreg) as [cmd Heq]. rewrite Heq. cbn.
    intros sid s [[_ Hs] | [_ <-]]%lookup_snoc_Some; [by apply Hown'|].
    split; [by left|]. intros d Hd. by apply not_elem_of_nil in Hd.
  - cbn. apply (shows_only_alter R); [intros s; apply shows_only_render|].
    apply (shows_only_alter R); [|done].
    intros s Hs. by destruct (mounted s).
  - cbn. unfold unmount. destruct (sessions w !! sid0) as [s0|]; [|done].
    destruct (mounted s0); [|done].
    assert (∀ sid s, alter (set_mounted false) sid0 (sessions w) !! sid = Some s →
                     shows_only (R sid) s)
      by (by apply (shows_only_alter R)).
    by destruct (interval s0).
  - cbn. by destruct (advance_keeps ms w) as [_ ->].
  - cbn. unfold settle_promise.
    destruct (find_request p (inflight w)) as [r|] eqn:Hr; [|done].
    cbn. apply (shows_only_alter R); [|done].
    intros s [Hst Hq]. split; [done|]. cbn.
    intros d [Hd| ->%list_elem_of_singleton]%elem_of_app; [by apply Hq|].
    apply find_request_Some in Hr as [Hr Hp].
    exists p, r. split_and!; [|by apply fetch_log_grows, Hin|done..].
    apply elem_of_app. right. left.
  - cbn. unfold settle_promise.
    by destruct (find_request p (inflight w)) as [r|].
  - cbn. apply (shows_only_alter R); [intros s; apply shows_only_render|done].
Qed.

(** X10. A component only ever shows data of its own requests. On every
    page reached from the initial one, the state a provider hands down is
    either the initial empty sequence or the data some request resolved
    with, and that request was issued by this very component; requests have
    promise ids of their own, so it is that request and no other. *)
Theorem provider_shows_own_results evs sid s :
  sessions (run init evs) !! sid = Some s →
  (state s = []
   ∨ ∃ p r, Resolve p (state s) ∈ evs ∧ r ∈ fetch_log (run init evs)
            ∧ pid r = p ∧ r_owner r = sid)
  ∧ NoDup (pid <$> fetch_log (run init evs)).
Proof.
  intros Hs. split.
  - assert (Hown : own_data evs (run init evs)).
    { clear Hs. induction evs as [|ev evs IH] using rev_ind.
      - split; [intros r Hr; by apply not_elem_of_nil in Hr|].
        intros sid' s' Hs'. change (sessions (run init [])) with (@nil (Session Item)) in Hs'.
        by rewrite lookup_nil in Hs'.
      - rewrite run_snoc. apply own_data_step; [by rewrite registry_run|done]. }
    destruct Hown as [_ Hown]. by destruct (Hown sid s Hs) as [Hst _].
  - assert (Hp : pids_fresh (run init evs)); [|by destruct Hp].
    clear Hs. induction evs as [|ev evs IH] using rev_ind.
    + split; [constructor|]. intros r Hr. by apply not_elem_of_nil in Hr.
    + rewrite run_snoc. by apply pids_fresh_step.
Qed.

End MoreProperties.

Lemma never_throws_only_notifies_witness :
  registry two_in_flight = module_registry
  ∧ uncaught (run two_in_flight [Reject 0 tt; Advance 700; Reject 1 tt; Reject 1 tt]) = []
  ∧ length (notifications
              (run two_in_flight [Reject 0 tt; Advance 700; Reject 1 tt; Reject 1 tt]))
    ≤ 3.
Proof.
  split; [by vm_compute|].
  destruct (never_throws_only_notifies
              [Reject 0 tt; Advance 700; Reject 1 tt; Reject 1 tt] two_in_flight)
    as (Hun & n & Hn & Hno); [by vm_compute|].
  assert (Hnil : notifications two_in_flight = []) by (by vm_compute).
  assert (Hnone : uncaught two_in_flight = []) by (by vm_compute).
  split; [by rewrite Hun|].
  rewrite Hno, Hnil, app_nil_l, length_replicate. vm_compute in Hn. exact Hn.
Defined.

Lemma requests_call_their_endpoint_witness :
  sweeps_request 1 1000 ∈ fetch_log (run (Err := unit) (@init nat) [Mount sweeps; Advance 1000])
  ∧ service (r_command (sweeps_request 1 1000)) ≠ appCommand.
Proof.
  assert (Hin : sweeps_request 1 1000
                ∈ fetch_log (run (Err := unit) (@init nat) [Mount sweeps; Advance 1000])).
  { vm_compute. right. left. }
  split; [exact Hin|].
  destruct (requests_call_their_endpoint (Item := nat) (Err := unit)
              [Mount sweeps; Advance 1000] (sweeps_request 1 1000) Hin)
    as (_ & Hsvc & _).
  intros Heq. apply Hsvc in Heq. discriminate Heq.
Defined.

Lemma one_timer_per_mounted_provider_witness :
  sessions (run (Err := unit) (@init nat)
              [Mount sweeps; Mount notebooks; Advance 2500; Unmount 0]) !! 0
  = Some (sweeps_session false)
  ∧ length (timers_of 0 (run (Err := unit) (@init nat)
                           [Mount sweeps; Mount notebooks; Advance 2500; Unmount 0]))
    = 0.
Proof.
  assert (Hs : sessions (run (Err := unit) (@init nat)
                           [Mount sweeps; Mount notebooks; Advance 2500; Unmount 0]) !! 0
               = Some (sweeps_session false)) by (by vm_compute).
  split; [exact Hs|].
  by destruct (one_timer_per_mounted_provider (Item := nat) (Err := unit)
                 [Mount sweeps; Mount notebooks; Advance 2500; Unmount 0]
                 0 (sweeps_session false) Hs) as [Hlen _].
Defined.

Lemma reader_scoping_witness :
  registry one_mounted = module_registry
  ∧ useClientDataState notebooks [0] one_mounted = Some []
  ∧ useClientDataState sweeps [0] one_mounted = Some [].
Proof.
  split; [by vm_compute|].
  destruct (reader_scoping one_mounted) as (Hout & Hbelow & Hthrough);
    [by vm_compute|].
  split.
  - rewrite (Hthrough notebooks 0 (sweeps_session true) []); [apply Hout|by vm_compute|done].
  - apply (Hbelow 0 (sweeps_session true) []); by vm_compute.
Defined.


Lemma failure_keeps_last_result_witness :
  0 ≠ 1
  ∧ find_request 0 (inflight two_in_flight) = Some (sweeps_request 0 0)
  ∧ find_request 1 (inflight two_in_flight) = Some (sweeps_request 1 1000)
  ∧ r_owner (sweeps_request 1 1000) = r_owner (sweeps_request 0 0)
  ∧ sessions two_in_flight !! 0 = Some (sweeps_session true)
  ∧ mounted (sweeps_session true) = true
  ∧ snapshot 0 (run two_in_flight [Resolve 0 [3]; Flush 0; Reject 1 tt; Flush 0])
    = Some [3].
Proof.
  split_and!; [lia|by vm_compute..|].
  by destruct (failure_keeps_last_result 0 1 (sweeps_request 0 0) (sweeps_request 1 1000)
                 (sweeps_session true) [3] tt two_in_flight
                 ltac:(lia) ltac:(by vm_compute) ltac:(by vm_compute) eq_refl
                 ltac:(by vm_compute) eq_refl)
    as [Hsnap _].
Defined.

Lemma provider_shows_own_results_witness :
  sessions (run (Err := unit) (@init nat) [Mount sweeps; Resolve 0 [5]; Flush 0]) !! 0
  = Some (Build_Session sweeps [5] [] true (Some 0))
  ∧ NoDup (pid <$> fetch_log
             (run (Err := unit) (@init nat) [Mount sweeps; Resolve 0 [5]; Flush 0])).
Proof.
  assert (Hs : sessions (run (Err := unit) (@init nat)
                           [Mount sweeps; Resolve 0 [5]; Flush 0]) !! 0
               = Some (Build_Session sweeps [5] [] true (Some 0))) by (by vm_compute).
  split; [exact Hs|].
  by destruct (provider_shows_own_results (Item := nat) (Err := unit)
                 [Mount sweeps; Resolve 0 [5]; Flush 0] 0 _ Hs) as [_ Hnd].
Defined.
